(** * The mini-app bridge (mini-app-bridge.js): correlator, dispatcher, router

    A shallow embedding of the bridge object of [mini-app-bridge.js] and of
    the part of the JavaScript run time it relies on: plain objects used as
    string-keyed tables, truthiness, [typeof], conversion to a property key,
    timers, promises, the console and the host channel.

    The module-level variables of the script ([paramsStore],
    [callbackRegistry], [requestIdCounter], [eventListeners]) and the
    environment (clock, channel, timers, promises, console) make up one
    [state]; every function of the bridge is a computation in a state and
    exception monad over it.

    What is taken from the environment rather than from the script:
    - [JSON.parse] is a parameter of the router; a reference parser for a
      fragment of JSON serves the worked examples;
    - a listener is a function known by its identity; what it does when
      invoked (return or throw) is a parameter, and it does not call the
      bridge while it runs;
    - [call] comes twice. [call_in] follows the function statement by
      statement in any surroundings: [JSON.stringify] may throw, and
      [postMessage] may throw any value, [null] included. [call] is the case
      in which [JSON.stringify] returns and [postMessage] throws nothing but
      [Error] objects (lemma [call_call_in]);
    - a payload is kept as the object [JSON.stringify] serialises;
    - numbers are the integer-valued ones, printed in decimal;
    - [to_string] is ToString on the values that have a string form
      ([stringable]); ids and event names are strings where a property
      depends on it;
    - the enumeration order of an object's keys is left unspecified. *)

From Stdlib Require Import Ascii String.
From stdpp Require Import gmap strings list fin_maps pretty.

Local Open Scope string_scope.
Local Open Scope list_scope.

(** ** JavaScript values *)

(** Data as it crosses the bridge: what [JSON.parse] produces, plus
    [undefined] and [Error] objects. Numbers are the integer-valued ones
    (0 and -0 are one value); objects are finite maps from property names, so
    two objects with the same own properties are equal. *)
#[warnings="-register-all"]
Inductive value :=
| VUndefined
| VNull
| VBool (b : bool)
| VNum (z : Z)
| VStr (s : string)
| VArr (l : list value)
| VObj (m : gmap string value)
| VError (name msg : string).

(** A function argument: a function (known by its identity, which is what
    [!==] compares) or some other value. *)
Inductive callback :=
| Fn (f : nat)
| NotFn (v : value).

Global Instance callback_eq_dec_fn (c : callback) (f : nat) : Decision (c = Fn f).
Proof.
  destruct c as [g|v].
  - destruct (decide (g = f)) as [->|Hne]; [left; reflexivity|right; congruence].
  - right; discriminate.
Defined.

Inductive jstype := TUndefined | TObject | TBoolean | TNumber | TString | TFunction.

Global Instance jstype_eq_dec : EqDecision jstype.
Proof. solve_decision. Defined.

(** [typeof v] *)
Definition typeof (v : value) : jstype :=
  match v with
  | VUndefined => TUndefined
  | VNull => TObject
  | VBool _ => TBoolean
  | VNum _ => TNumber
  | VStr _ => TString
  | VArr _ | VObj _ | VError _ _ => TObject
  end.

(** ToBoolean: [false], [0], the empty string, [null] and [undefined] are
    falsy, everything else is truthy. *)
Definition truthy (v : value) : bool :=
  match v with
  | VUndefined | VNull => false
  | VBool b => b
  | VNum z => negb (z =? 0)%Z
  | VStr s => negb (String.eqb s EmptyString)
  | VArr _ | VObj _ | VError _ _ => true
  end.

(** ToString, which is also how a value becomes a property key in
    [table[v]], on the values for which it returns ([stringable] below; on
    an object with an own [toString] property the conversion throws, and
    the string given here is not used). Arrays join their elements with
    commas, [null] and [undefined] elements printing as nothing; numbers
    print in decimal, as they do below 10^21. *)
Fixpoint to_string (v : value) : string :=
  match v with
  | VUndefined => "undefined"
  | VNull => "null"
  | VBool true => "true"
  | VBool false => "false"
  | VNum z => pretty z
  | VStr s => s
  | VArr l =>
      (fix join (l : list value) : string :=
         match l with
         | [] => EmptyString
         | [x] => match x with VUndefined | VNull => EmptyString | _ => to_string x end
         | x :: l' =>
             match x with VUndefined | VNull => EmptyString | _ => to_string x end
               +:+ "," +:+ join l'
         end) l
  | VObj _ => "[object Object]"
  | VError name msg =>
      if String.eqb name EmptyString then msg
      else if String.eqb msg EmptyString then name
      else name +:+ ": " +:+ msg
  end.

(** [v.k] on a truthy value, for the field names the router reads ([event],
    [data], [id], [success], [error]): the own property of an object,
    [undefined] on anything else. *)
Definition prop (v : value) (k : string) : value :=
  match v with
  | VObj m => default VUndefined (m !! k)
  | _ => VUndefined
  end.

(** The own enumerable properties copied by the spread [{...v}]: those of an
    object, the indexed elements of an array, none of an [Error]. *)
Definition own_props (v : value) : gmap string value :=
  match v with
  | VObj m => m
  | VArr l => list_to_map (imap (λ i x, (pretty i, x)) l)
  | _ => ∅
  end.

(** [v === null] *)
Definition is_null (v : value) : bool :=
  match v with
  | VNull => true
  | _ => false
  end.

(** [a || b] *)
Definition or_else (a b : value) : value := if truthy a then a else b.

(** ** Plain objects used as tables *)

(** The three tables are object literals [{}], so a lookup [table[k]] that
    finds no own property goes on to [Object.prototype]. *)
Definition object_prototype : list string :=
  [ "constructor"; "hasOwnProperty"; "isPrototypeOf"; "propertyIsEnumerable";
    "toLocaleString"; "toString"; "valueOf"; "__proto__";
    "__defineGetter__"; "__defineSetter__"; "__lookupGetter__";
    "__lookupSetter__" ].

(** What [table[k]] evaluates to: an own property, a member inherited from
    [Object.prototype] (a function, or the prototype itself for [__proto__]:
    truthy, and without any of the fields the bridge reads), or
    [undefined]. *)
Inductive slot (A : Type) :=
| Own (a : A)
| Inherited
| Absent.
Arguments Own {A} a.
Arguments Inherited {A}.
Arguments Absent {A}.

Definition get_slot {A} (m : gmap string A) (k : string) : slot A :=
  match m !! k with
  | Some a => Own a
  | None => if bool_decide (k ∈ object_prototype) then Inherited else Absent
  end.

(** ** The state *)

(** An entry of [callbackRegistry]: [{ resolve, reject, timestamp,
    timeoutId }], with [resolve] and [reject] the two resolving functions of
    the promise [e_promise]. *)
Record entry := Entry {
  e_promise : nat;
  e_timestamp : N;
  e_timeoutId : nat
}.

Inductive pstate :=
| Pending
| Fulfilled (v : value)
| Rejected (v : value).

(** A callback scheduled by [setTimeout]: the request id its closure
    captured and the delay. *)
Record timer := Timer {
  t_request : string;
  t_delay : N
}.

(** [window.SuperAppChannel]: missing, or an object whose [postMessage]
    returns ([None]) or throws ([Some msg]). In [call] what it throws is an
    [Error] with message [msg]; in [call_in] it is any value, named by
    [msg]. *)
Inductive transport :=
| NoChannel
| Channel (postMessage : value → option string).

Inductive level := Info | Err | Warn.

Record log_line := Line {
  l_level : level;
  l_text : string;
  l_args : list value
}.

Record state := State {
  (* the script's variables *)
  paramsStore : gmap string value;
  callbackRegistry : gmap string entry;
  requestIdCounter : N;
  eventListeners : gmap string (list nat);
  (* the environment *)
  clock : N;                       (* what Date.now() returns *)
  channel : transport;             (* window.SuperAppChannel *)
  timers : gmap nat timer;         (* timeouts scheduled and not yet fired or cleared *)
  nextTimer : nat;                 (* the id the next setTimeout returns *)
  promises : list pstate;          (* the promises made by call, by handle *)
  posted : list value;             (* the payload of every postMessage invocation *)
  invoked : list (nat * value);    (* every listener invocation: function, argument *)
  console : list log_line
}.

Definition with_paramsStore (x : gmap string value) (s : state) : state :=
  State x (callbackRegistry s) (requestIdCounter s) (eventListeners s) (clock s)
    (channel s) (timers s) (nextTimer s) (promises s) (posted s) (invoked s) (console s).
Definition with_callbackRegistry (x : gmap string entry) (s : state) : state :=
  State (paramsStore s) x (requestIdCounter s) (eventListeners s) (clock s)
    (channel s) (timers s) (nextTimer s) (promises s) (posted s) (invoked s) (console s).
Definition with_requestIdCounter (x : N) (s : state) : state :=
  State (paramsStore s) (callbackRegistry s) x (eventListeners s) (clock s)
    (channel s) (timers s) (nextTimer s) (promises s) (posted s) (invoked s) (console s).
Definition with_eventListeners (x : gmap string (list nat)) (s : state) : state :=
  State (paramsStore s) (callbackRegistry s) (requestIdCounter s) x (clock s)
    (channel s) (timers s) (nextTimer s) (promises s) (posted s) (invoked s) (console s).
Definition with_clock (x : N) (s : state) : state :=
  State (paramsStore s) (callbackRegistry s) (requestIdCounter s) (eventListeners s) x
    (channel s) (timers s) (nextTimer s) (promises s) (posted s) (invoked s) (console s).
Definition with_channel (x : transport) (s : state) : state :=
  State (paramsStore s) (callbackRegistry s) (requestIdCounter s) (eventListeners s) (clock s)
    x (timers s) (nextTimer s) (promises s) (posted s) (invoked s) (console s).
Definition with_timers (x : gmap nat timer) (s : state) : state :=
  State (paramsStore s) (callbackRegistry s) (requestIdCounter s) (eventListeners s) (clock s)
    (channel s) x (nextTimer s) (promises s) (posted s) (invoked s) (console s).
Definition with_nextTimer (x : nat) (s : state) : state :=
  State (paramsStore s) (callbackRegistry s) (requestIdCounter s) (eventListeners s) (clock s)
    (channel s) (timers s) x (promises s) (posted s) (invoked s) (console s).
Definition with_promises (x : list pstate) (s : state) : state :=
  State (paramsStore s) (callbackRegistry s) (requestIdCounter s) (eventListeners s) (clock s)
    (channel s) (timers s) (nextTimer s) x (posted s) (invoked s) (console s).
Definition with_posted (x : list value) (s : state) : state :=
  State (paramsStore s) (callbackRegistry s) (requestIdCounter s) (eventListeners s) (clock s)
    (channel s) (timers s) (nextTimer s) (promises s) x (invoked s) (console s).
Definition with_invoked (x : list (nat * value)) (s : state) : state :=
  State (paramsStore s) (callbackRegistry s) (requestIdCounter s) (eventListeners s) (clock s)
    (channel s) (timers s) (nextTimer s) (promises s) (posted s) x (console s).
Definition with_console (x : list log_line) (s : state) : state :=
  State (paramsStore s) (callbackRegistry s) (requestIdCounter s) (eventListeners s) (clock s)
    (channel s) (timers s) (nextTimer s) (promises s) (posted s) (invoked s) x.

(** ** Computations: state and exceptions *)

(** A statement either completes with a result or throws; either way the
    assignments made so far stay. *)
Inductive outcome (A : Type) :=
| Ret (a : A)
| Throw (e : value).
Arguments Ret {A} a.
Arguments Throw {A} e.

Definition M (A : Type) : Type := state → outcome A * state.

Global Instance M_ret : MRet M := λ A a st, (Ret a, st).
Global Instance M_bind : MBind M := λ A B f m st,
  match m st with
  | (Ret a, st') => f a st'
  | (Throw e, st') => (Throw e, st')
  end.

Definition throw {A} (e : value) : M A := λ st, (Throw e, st).

(** [try { m } catch (e) { h e }] *)
Definition try_catch {A} (m : M A) (h : value → M A) : M A := λ st,
  match m st with
  | (Ret a, st') => (Ret a, st')
  | (Throw e, st') => h e st'
  end.

Definition gets {A} (f : state → A) : M A := λ st, (Ret (f st), st).
Definition modify (f : state → state) : M unit := λ st, (Ret (), f st).

Definition TypeError (msg : string) : value := VError "TypeError" msg.
Definition Error (msg : string) : value := VError "Error" msg.

(** ** The environment's primitives *)

(** [console.log], [console.error] *)
Definition console_write (lv : level) (text : string) (args : list value) : M unit :=
  modify (λ st, with_console (console st ++ [Line lv text args]) st).

(** [Date.now()] *)
Definition Date_now : M N := gets clock.

(** [setTimeout(() => ..requestId.., delay)]: schedules the callback and
    returns its id. *)
Definition setTimeout (requestId : string) (delay : N) : M nat := λ st,
  (Ret (nextTimer st),
   with_nextTimer (S (nextTimer st))
     (with_timers (<[nextTimer st := Timer requestId delay]> (timers st)) st)).

(** [clearTimeout(id)]; [clearTimeout(undefined)] does nothing. *)
Definition clearTimeout (id : option nat) : M unit :=
  match id with
  | Some t => modify (λ st, with_timers (delete t (timers st)) st)
  | None => mret ()
  end.

(** The resolving functions of promise [p]: the first call settles it, later
    calls do nothing. *)
Definition settle_in (p : nat) (o : pstate) (l : list pstate) : list pstate :=
  match l !! p with
  | Some Pending => <[p := o]> l
  | _ => l
  end.
Definition settle (p : nat) (o : pstate) : M unit :=
  modify (λ st, with_promises (settle_in p o (promises st)) st).
Definition resolve (p : nat) (v : value) : M unit := settle p (Fulfilled v).
Definition reject (p : nat) (v : value) : M unit := settle p (Rejected v).

(** [new Promise(executor)]: the executor runs at once; if it throws, the
    promise is rejected with what it threw. The promise's handle is
    returned. *)
Definition new_Promise (executor : nat → M unit) : M nat := λ st,
  let p := length (promises st) in
  match executor p (with_promises (promises st ++ [Pending]) st) with
  | (Ret _, st') => (Ret p, st')
  | (Throw e, st') => (Ret p, snd (reject p e st'))
  end.

(** [window.SuperAppChannel.postMessage(payload)]. The payload is kept as
    the object that [JSON.stringify] serialises. *)
Definition postMessage (post : value → option string) (payload : value) : M unit := λ st,
  let st' := with_posted (posted st ++ [payload]) st in
  match post payload with
  | None => (Ret (), st')
  | Some msg => (Throw (Error msg), st')
  end.

(** [e.message] on an [Error] object. *)
Definition message (e : value) : string :=
  match e with
  | VError _ msg => msg
  | _ => "undefined"
  end.

(** Whether ToString returns for [v]. An object with an own [toString]
    property does not print: the property is data, never a function, and the
    inherited [valueOf] gives the object back, so the conversion throws a
    [TypeError]. An array prints its elements, so it does not print when one
    of them does not. For a value that prints, [to_string] is its string. *)
Fixpoint stringable (v : value) : bool :=
  match v with
  | VObj m => match m !! "toString" with Some _ => false | None => true end
  | VArr l => forallb stringable l
  | _ => true
  end.

(** [`${e.message}`] on whatever was thrown: reading a property of [null] or
    [undefined] throws a [TypeError]; an [Error] gives its message; any other
    object its own [message] property, printed, which throws when that
    property does not print; a primitive has no [message]. *)
Definition message_of (e : value) : outcome string :=
  match e with
  | VUndefined =>
      Throw (TypeError "Cannot read properties of undefined (reading 'message')")
  | VNull =>
      Throw (TypeError "Cannot read properties of null (reading 'message')")
  | VError _ msg => Ret msg
  | VObj m =>
      let v := default VUndefined (m !! "message") in
      if stringable v then Ret (to_string v)
      else Throw (TypeError "Cannot convert object to primitive value")
  | _ => Ret "undefined"
  end.

(** [postMessage] when what it throws need not be an [Error]: where the
    channel answers [Some lbl] the value thrown is [raised lbl]. *)
Definition postMessage_raising (post : value → option string) (raised : string → value)
    (payload : value) : M unit := λ st,
  let st' := with_posted (posted st ++ [payload]) st in
  match post payload with
  | None => (Ret (), st')
  | Some lbl => (Throw (raised lbl), st')
  end.

(** [JSON.stringify(payload)], which returns or throws a [TypeError]. The
    text it returns is not kept: the payload stands for it. *)
Definition JSON_stringify (serialises : value → bool) (payload : value) : M unit :=
  if serialises payload then mret ()
  else throw (TypeError "Converting circular structure to JSON").

(** ** The bridge *)

Definition VERSION : string := "0.1.0".
Definition DEBUG : bool := true.
Definition timeoutDuration : N := 60000.

(** [logger.log] prints only when [DEBUG]; [logger.error] always. *)
Definition logger_log (text : string) (args : list value) : M unit :=
  if DEBUG then console_write Info text args else mret ().
Definition logger_error (text : string) (args : list value) : M unit :=
  console_write Err text args.

(** [`sa_${Date.now()}_${requestIdCounter++}`] *)
Definition request_id (now counter : N) : string :=
  "sa_" +:+ pretty now +:+ "_" +:+ pretty counter.

Definition generateRequestId : M string :=
  now ← Date_now;
  counter ← gets requestIdCounter;
  modify (λ st, with_requestIdCounter (counter + 1)%N st);;
  mret (request_id now counter).

(** The state the script starts from. The load-time notification
    [bridge.call("superAppBase", "initialized", {})] is one more [call]. *)
Definition initial : state :=
  State ∅ ∅ 1 ∅ 0 NoChannel ∅ 0 [] [] [] [].

Definition timeout_error : value := VObj {[ "error" := VStr "Request Timeout" ]}.
Definition unknown_error : value := VObj {[ "error" := VStr "Unknown error" ]}.

Definition payload_of (requestId : string) (className methodName params : value) : value :=
  VObj (<["id" := VStr requestId]> (<["className" := className]>
       (<["method" := methodName]> (<["params" := params]> ∅)))).

(** [params = {}]: the default of [call]'s third parameter. *)
Definition params_or_default (params : value) : value :=
  match params with
  | VUndefined => VObj ∅
  | _ => params
  end.

Section Bridge.

(** [JSON.parse]: the parsed value, or [None] when it throws a
    [SyntaxError]. *)
Variable JSON_parse : string → option value.

(** The listeners' code: what invoking function [f] on an argument does
    in a given state, returning ([None]) or throwing ([Some e]). A
    listener does not call back into the bridge while it runs. *)
Variable listener : nat → value → state → option value.

Definition invoke (f : nat) (data : value) : M unit := λ st,
  let st' := with_invoked (invoked st ++ [(f, data)]) st in
  match listener f data st with
  | None => (Ret (), st')
  | Some e => (Throw e, st')
  end.

Definition safeParseJSON (str : value) : M value :=
  match str with
  | VStr s =>
      match JSON_parse s with
      | Some v => mret v
      | None =>
          logger_error "Invalid JSON:" [str; VError "SyntaxError" EmptyString];;
          mret VNull
      end
  | _ => mret str
  end.

(** [callbackRegistry[requestId]] is read once here and again at each use
    in the script; nothing in between writes to the registry. *)
Definition handleSuccess (requestId response : value) : M unit :=
  registry ← gets callbackRegistry;
  match get_slot registry (to_string requestId) with
  | Own e =>
      clearTimeout (Some (e_timeoutId e));;
      logger_log "Success Response:" [response];;
      now ← Date_now;
      logger_log ("Request took " +:+ pretty (Z.of_N now - Z.of_N (e_timestamp e))%Z +:+ "ms") [];;
      resolve (e_promise e) response;;
      modify (λ st, with_callbackRegistry (delete (to_string requestId) (callbackRegistry st)) st)
  | Inherited =>
      (* the inherited member has no timeoutId, timestamp or resolve *)
      clearTimeout None;;
      logger_log "Success Response:" [response];;
      logger_log "Request took NaNms" [];;
      throw (TypeError "callbackRegistry[requestId].resolve is not a function")
  | Absent => mret ()
  end.

Definition handleFailure (requestId error : value) : M unit :=
  registry ← gets callbackRegistry;
  match get_slot registry (to_string requestId) with
  | Own e =>
      clearTimeout (Some (e_timeoutId e));;
      logger_error "Error Response:" [error];;
      reject (e_promise e) error;;
      modify (λ st, with_callbackRegistry (delete (to_string requestId) (callbackRegistry st)) st)
  | Inherited =>
      clearTimeout None;;
      logger_error "Error Response:" [error];;
      throw (TypeError "callbackRegistry[requestId].reject is not a function")
  | Absent => mret ()
  end.

(** The callback [call] hands to [setTimeout]. *)
Definition timeout_callback (requestId : string) : M unit :=
  registry ← gets callbackRegistry;
  match get_slot registry requestId with
  | Own _ | Inherited => handleFailure (VStr requestId) timeout_error
  | Absent => mret ()
  end.

(** The event loop running timer [t], if it is still scheduled. *)
Definition fire (t : nat) : M unit :=
  scheduled ← gets timers;
  match scheduled !! t with
  | Some tm =>
      modify (λ st, with_timers (delete t (timers st)) st);;
      timeout_callback (t_request tm)
  | None => mret ()
  end.

(** [call] where [JSON.stringify] returns and what [postMessage] throws is
    an [Error] object, whose [message] the [catch] reads. [call_in] below is
    the function in any surroundings. *)
Definition call (className methodName params : value) : M nat :=
  let params := params_or_default params in
  new_Promise (λ p,
    if bool_decide (typeof className ≠ TString) || negb (truthy className) then
      reject p (Error "Invalid className")
    else if bool_decide (typeof methodName ≠ TString) || negb (truthy methodName) then
      reject p (Error "Invalid methodName")
    else
      requestId ← generateRequestId;
      timeoutId ← setTimeout requestId timeoutDuration;
      now ← Date_now;
      modify (λ st, with_callbackRegistry
                      (<[requestId := Entry p now timeoutId]> (callbackRegistry st)) st);;
      let payload := payload_of requestId className methodName params in
      logger_log "Sending to Flutter:" [payload];;
      ch ← gets channel;
      match ch with
      | Channel post =>
          try_catch (postMessage post payload) (λ e,
            clearTimeout (Some timeoutId);;
            reject p (Error ("Failed to send message: " +:+ message e));;
            modify (λ st, with_callbackRegistry (delete requestId (callbackRegistry st)) st))
      | NoChannel =>
          logger_error "SuperAppChannel is NOT available!" [];;
          clearTimeout (Some timeoutId);;
          reject p (Error "SuperAppChannel is not available!");;
          modify (λ st, with_callbackRegistry (delete requestId (callbackRegistry st)) st)
      end).

(** [call], statement by statement, in any surroundings. [call] above is the
    case in which [JSON.stringify] returns and [postMessage] throws nothing
    but [Error] objects. In general [JSON.stringify] throws on params that
    hold a cycle or a [BigInt] ([serialises] tells whether it returns for
    the payload), and it runs after the entry was stored and outside the
    [try]; and [postMessage] throws any value ([raised]), whose [message]
    the [catch] reads after it cleared the timeout and before it rejects
    and deletes the entry. What the executor throws rejects the promise. *)
Definition call_in (serialises : value → bool) (raised : string → value)
    (className methodName params : value) : M nat :=
  let params := params_or_default params in
  new_Promise (λ p,
    if bool_decide (typeof className ≠ TString) || negb (truthy className) then
      reject p (Error "Invalid className")
    else if bool_decide (typeof methodName ≠ TString) || negb (truthy methodName) then
      reject p (Error "Invalid methodName")
    else
      requestId ← generateRequestId;
      timeoutId ← setTimeout requestId timeoutDuration;
      now ← Date_now;
      modify (λ st, with_callbackRegistry
                      (<[requestId := Entry p now timeoutId]> (callbackRegistry st)) st);;
      let payload := payload_of requestId className methodName params in
      JSON_stringify serialises payload;;
      logger_log "Sending to Flutter:" [payload];;
      ch ← gets channel;
      match ch with
      | Channel post =>
          try_catch (postMessage_raising post raised payload) (λ e,
            clearTimeout (Some timeoutId);;
            msg ← (λ st, (message_of e, st));
            reject p (Error ("Failed to send message: " +:+ msg));;
            modify (λ st, with_callbackRegistry (delete requestId (callbackRegistry st)) st))
      | NoChannel =>
          logger_error "SuperAppChannel is NOT available!" [];;
          clearTimeout (Some timeoutId);;
          reject p (Error "SuperAppChannel is not available!");;
          modify (λ st, with_callbackRegistry (delete requestId (callbackRegistry st)) st)
      end).

(** The function [addListener] returns: calling it is
    [removeListener(eventName, callback)]. [None] is [undefined]. *)
Definition addListener (eventName : value) (cb : callback) : M (option (value * callback)) :=
  if bool_decide (typeof eventName ≠ TString) || negb (truthy eventName) then
    logger_error "Invalid event name" [];;
    mret None
  else
    match cb with
    | NotFn _ =>
        logger_error "Event callback must be a function" [];;
        mret None
    | Fn f =>
        let key := to_string eventName in
        listeners ← gets eventListeners;
        match get_slot listeners key with
        | Absent =>
            modify (λ st, with_eventListeners (<[key := []]> (eventListeners st)) st)
        | _ => mret ()
        end;;
        listeners ← gets eventListeners;
        match get_slot listeners key with
        | Own l =>
            modify (λ st, with_eventListeners (<[key := l ++ [f]]> (eventListeners st)) st)
        | _ => throw (TypeError "eventListeners[eventName].push is not a function")
        end;;
        logger_log ("Added listener for event: " +:+ key) [];;
        mret (Some (eventName, cb))
    end.

Definition removeListener (eventName : value) (cb : callback) : M unit :=
  let key := to_string eventName in
  listeners ← gets eventListeners;
  match get_slot listeners key with
  | Absent => mret ()
  | Inherited => throw (TypeError "eventListeners[eventName].filter is not a function")
  | Own l =>
      let initialSize := length l in
      let l' := filter (λ f, cb ≠ Fn f) l in
      modify (λ st, with_eventListeners (<[key := l']> (eventListeners st)) st);;
      (if bool_decide (initialSize ≠ length l')
       then logger_log ("Removed listener for event: " +:+ key) []
       else mret ());;
      if bool_decide (length l' = 0)
      then modify (λ st, with_eventListeners (delete key (eventListeners st)) st)
      else mret ()
  end.

(** [l.forEach(cb => { try { cb(data) } catch (err) { logger.error(..) } })] *)
Fixpoint forEach_listener (eventName : string) (data : value) (l : list nat) : M unit :=
  match l with
  | [] => mret ()
  | f :: l' =>
      try_catch (invoke f data) (λ err,
        logger_error ("Error in event listener for '" +:+ eventName +:+ "':") [err]);;
      forEach_listener eventName data l'
  end.

Definition dispatchEvent (eventName data : value) : M unit :=
  let key := to_string eventName in
  logger_log ("Dispatching event '" +:+ key +:+ "' with data:") [data];;
  listeners ← gets eventListeners;
  match get_slot listeners key with
  | Absent => mret ()
  | Inherited => throw (TypeError "eventListeners[eventName].forEach is not a function")
  | Own l => forEach_listener key data l
  end.

(** [Object.keys(eventListeners)], in the table's enumeration order. *)
Definition getRegisteredEvents : M (list string) :=
  gets (λ st, (map_to_list (eventListeners st)).*1).

Definition setParams (newParams : value) : M unit :=
  if bool_decide (typeof newParams ≠ TObject) || is_null newParams then
    logger_error "Invalid params object" []
  else
    modify (λ st, with_paramsStore (own_props newParams ∪ paramsStore st) st);;
    store ← gets paramsStore;
    logger_log "Params updated:" [VObj store];;
    dispatchEvent (VStr "paramsUpdated") (VObj store).

(** What [getParams] returns: a fresh copy of the store, or
    [paramsStore[key]]. *)
Inductive read :=
| Copy (m : gmap string value)
| Field (s : slot value).

Definition getParams (key : value) : M read :=
  store ← gets paramsStore;
  if truthy key then mret (Field (get_slot store (to_string key)))
  else mret (Copy store).

Definition receiveMessage (response : value) : M unit :=
  try_catch
    (logger_log "Received from Flutter:" [response];;
     res ← safeParseJSON response;
     if negb (truthy res) then mret ()
     else if truthy (prop res "event") then
       dispatchEvent (prop res "event") (prop res "data")
     else if truthy (prop res "id") && bool_decide (typeof (prop res "success") = TBoolean) then
       if truthy (prop res "success") then
         handleSuccess (prop res "id") (prop res "data")
       else
         handleFailure (prop res "id") (or_else (prop res "error") unknown_error)
     else mret ())
    (λ e, logger_error "Error processing message:" [e]).

End Bridge.

(** ** A reference [JSON.parse]

    The bridge is stated over any [JSON_parse]. For running it on concrete
    texts, this is [JSON.parse] on the JSON texts whose numbers are integer
    literals and whose strings use no [\u] escape; [None] is the
    [SyntaxError]. Texts with fractions, exponents or [\u] escapes lie
    outside what it covers (it answers [None] there too). *)
Module Json.

Definition is_ws (c : ascii) : bool :=
  bool_decide (c ∈ [" "; "009"; "010"; "013"]%char).

Fixpoint skip_ws (s : string) : string :=
  match s with
  | String c s' => if is_ws c then skip_ws s' else s
  | EmptyString => s
  end.

Definition digit (c : ascii) : option Z :=
  let n := Z.of_nat (nat_of_ascii c) in
  if bool_decide (48 ≤ n ≤ 57)%Z then Some (n - 48)%Z else None.

Fixpoint digits (acc : Z) (s : string) : Z * string :=
  match s with
  | String c s' =>
      match digit c with
      | Some d => digits (10 * acc + d) s'
      | None => (acc, s)
      end
  | EmptyString => (acc, s)
  end.

(** After the integer part: a fraction or an exponent is outside the
    fragment. *)
Definition integer_end (z : Z) (s : string) : option (value * string) :=
  match s with
  | String "." _ | String "e" _ | String "E" _ => None
  | _ => Some (VNum z, s)
  end.

(** [0], or a non-zero digit followed by digits. *)
Definition natural (s : string) : option (Z * string) :=
  match s with
  | String c s' =>
      match digit c with
      | Some 0%Z => Some (0%Z, s')
      | Some d => Some (digits d s')
      | None => None
      end
  | EmptyString => None
  end.

Definition number (s : string) : option (value * string) :=
  match s with
  | String "-" s' => '(z, r) ← natural s'; integer_end (- z) r
  | _ => '(z, r) ← natural s; integer_end z r
  end.

Definition escape (c : ascii) : option ascii :=
  match c with
  | "034"%char => Some "034"%char
  | "092"%char => Some "092"%char
  | "/"%char => Some "/"%char
  | "b"%char => Some "008"%char
  | "f"%char => Some "012"%char
  | "n"%char => Some "010"%char
  | "r"%char => Some "013"%char
  | "t"%char => Some "009"%char
  | _ => None
  end.

(** The characters after an opening quote, up to the closing one. *)
Fixpoint chars (s : string) : option (string * string) :=
  match s with
  | EmptyString => None
  | String "034" r => Some (EmptyString, r)
  | String "092" (String c r) =>
      c' ← escape c; '(t, r') ← chars r; Some (String c' t, r')
  | String "092" EmptyString => None
  | String c r =>
      if bool_decide (nat_of_ascii c < 32) then None
      else '(t, r') ← chars r; Some (String c t, r')
  end.

Fixpoint literal (lit s : string) : option string :=
  match lit, s with
  | EmptyString, _ => Some s
  | String a lit', String b s' => if Ascii.eqb a b then literal lit' s' else None
  | String _ _, EmptyString => None
  end.

Fixpoint parse_value (fuel : nat) (s : string) : option (value * string) :=
  match fuel with
  | 0 => None
  | S fuel =>
      match skip_ws s with
      | EmptyString => None
      | String "n" r => r' ← literal "ull" r; Some (VNull, r')
      | String "t" r => r' ← literal "rue" r; Some (VBool true, r')
      | String "f" r => r' ← literal "alse" r; Some (VBool false, r')
      | String "034" r => '(t, r') ← chars r; Some (VStr t, r')
      | String "[" r =>
          match skip_ws r with
          | String "]" r' => Some (VArr [], r')
          | _ => '(l, r') ← parse_elements fuel r; Some (VArr l, r')
          end
      | String "{" r =>
          match skip_ws r with
          | String "}" r' => Some (VObj ∅, r')
          | _ => '(m, r') ← parse_members fuel ∅ r; Some (VObj m, r')
          end
      | String c r => number (String c r)
      end
  end
with parse_elements (fuel : nat) (s : string) : option (list value * string) :=
  match fuel with
  | 0 => None
  | S fuel =>
      '(v, r) ← parse_value fuel s;
      match skip_ws r with
      | String "]" r' => Some ([v], r')
      | String "," r' => '(l, r'') ← parse_elements fuel r'; Some (v :: l, r'')
      | _ => None
      end
  end
with parse_members (fuel : nat) (acc : gmap string value) (s : string)
    : option (gmap string value * string) :=
  match fuel with
  | 0 => None
  | S fuel =>
      match skip_ws s with
      | String "034" r =>
          '(k, r1) ← chars r;
          match skip_ws r1 with
          | String ":" r2 =>
              '(v, r3) ← parse_value fuel r2;
              (* a repeated name overwrites the earlier one *)
              let acc := <[k := v]> acc in
              match skip_ws r3 with
              | String "}" r4 => Some (acc, r4)
              | String "," r4 => parse_members fuel acc r4
              | _ => None
              end
          | _ => None
          end
      | _ => None
      end
  end.

Definition parse (s : string) : option value :=
  '(v, r) ← parse_value (2 * String.length s + 2) s;
  match skip_ws r with
  | EmptyString => Some v
  | _ => None
  end.

End Json.

(** ** Runs of the bridge *)

(** What can happen to the bridge: the mini-app calls one of its functions,
    the host calls [receiveMessage], the event loop runs a timer, the clock
    moves, the host installs or removes the channel. *)
Inductive op :=
| OCall (className methodName params : value)
| OHandleSuccess (requestId response : value)
| OHandleFailure (requestId error : value)
| OAddListener (eventName : value) (cb : callback)
| ORemoveListener (eventName : value) (cb : callback)
| ODispatchEvent (eventName data : value)
| OGetRegisteredEvents
| OSetParams (newParams : value)
| OGetParams (key : value)
| OReceiveMessage (response : value)
| OFire (t : nat)
| OClock (now : N)
| OChannel (ch : transport).

Section Runs.

Variable JSON_parse : string → option value.
Variable listener : nat → value → state → option value.

(** The state after one operation; an exception it throws goes to its
    caller and the state stays as the operation left it. *)
Definition step (st : state) (o : op) : state :=
  match o with
  | OCall c m p => snd (call c m p st)
  | OHandleSuccess i r => snd (handleSuccess i r st)
  | OHandleFailure i e => snd (handleFailure i e st)
  | OAddListener n cb => snd (addListener n cb st)
  | ORemoveListener n cb => snd (removeListener n cb st)
  | ODispatchEvent n d => snd (dispatchEvent listener n d st)
  | OGetRegisteredEvents => snd (getRegisteredEvents st)
  | OSetParams p => snd (setParams listener p st)
  | OGetParams k => snd (getParams k st)
  | OReceiveMessage r => snd (receiveMessage JSON_parse listener r st)
  | OFire t => snd (fire t st)
  | OClock now => with_clock now st
  | OChannel ch => with_channel ch st
  end.

Definition run (st : state) (tr : list op) : state := foldl step st tr.

End Runs.

(** ** Vocabulary of the properties *)

(** A non-empty string: what [call] and [addListener] accept as a name. *)
Definition nonempty_string (v : value) : bool :=
  bool_decide (typeof v = TString) && truthy v.

(** The console lines of the router. *)
Definition received (response : value) : log_line :=
  Line Info "Received from Flutter:" [response].
Definition invalid_json (s : string) : log_line :=
  Line Err "Invalid JSON:" [VStr s; VError "SyntaxError" EmptyString].

(** The console lines of the dispatcher. *)
Definition dispatching (key : string) (data : value) : log_line :=
  Line Info ("Dispatching event '" +:+ key +:+ "' with data:") [data].
Definition listener_error (key : string) (err : value) : log_line :=
  Line Err ("Error in event listener for '" +:+ key +:+ "':") [err].

(** The console line a call with valid names prints. *)
Definition sending (payload : value) : log_line := Line Info "Sending to Flutter:" [payload].

(** A call with valid names prints its payload, once it is serialised,
    before it looks for the channel: the console holds the ids of these
    calls, oldest first. *)
Definition sent_id (ln : log_line) : option string :=
  if bool_decide (l_text ln = "Sending to Flutter:") then
    match l_args ln with
    | [payload] =>
        match prop payload "id" with
        | VStr s => Some s
        | _ => None
        end
    | _ => None
    end
  else None.

Definition issued (st : state) : list string := omap sent_id (console st).

(** The id of an outbound payload. *)
Definition payload_id (payload : value) : value := prop payload "id".

(** Two states with the same ids issued, counter and posted payloads. *)
Definition same_ids (st st' : state) : Prop :=
  issued st' = issued st
  ∧ requestIdCounter st' = requestIdCounter st
  ∧ posted st' = posted st.

(** The subscriber table holds no empty list. *)
Definition listeners_inv (st : state) : Prop :=
  ∀ k l, eventListeners st !! k = Some l → l ≠ [].

(** [P] survives whatever [m] does to the state, whether it returns or
    throws. *)
Definition preserves {A} (P : state → Prop) (m : M A) : Prop :=
  ∀ st, P st → P (snd (m st)).

(** The correlator's part of the state. *)
Definition correlator (st : state) : gmap string entry * list pstate * gmap nat timer :=
  (callbackRegistry st, promises st, timers st).

(** [a ?? b], the operator the specification names for the default error
    of a failed response. *)
Definition nullish_or (a b : value) : value :=
  match a with
  | VUndefined | VNull => b
  | _ => a
  end.

(** The payload the specification gives the timeout: [{reason: "timeout"}]. *)
Definition spec_timeout_error : value := VObj {[ "reason" := VStr "timeout" ]}.

Fixpoint all_digits (s : string) : bool :=
  match s with
  | EmptyString => true
  | String c s' => bool_decide (c ∈ ["0";"1";"2";"3";"4";"5";"6";"7";"8";"9"]%char) && all_digits s'
  end.

(** Listeners that always return. *)
Definition calm : nat → value → state → option value := λ _ _ _, None.

(** Listener 1 throws, every other listener returns. *)
Definition first_throws : nat → value → state → option value :=
  λ f _ _, if bool_decide (f = 1) then Some (Error "boom") else None.

(** A channel that accepts every message, and one that refuses them. *)
Definition accepting : transport := Channel (λ _, None).
Definition refusing : transport := Channel (λ _, Some "closed").

(** A JSON string literal: the text between double quotes. *)
Definition dquote : string := String "034" EmptyString.
Definition quoted (s : string) : string := dquote +:+ s +:+ dquote.

(** Three messages from the host for request [sa_0_1]: a successful
    response, one that also has an empty [event], and a failed one whose
    [error] is the empty string. *)
Definition success_message : value :=
  VStr ("{" +:+ quoted "id" +:+ ":" +:+ quoted "sa_0_1" +:+ "," +:+ quoted "success"
        +:+ ":true," +:+ quoted "data" +:+ ":{" +:+ quoted "v" +:+ ":1}}").
Definition falsy_event_message : value :=
  VStr ("{" +:+ quoted "event" +:+ ":" +:+ quoted EmptyString +:+ "," +:+ quoted "id"
        +:+ ":" +:+ quoted "sa_0_1" +:+ "," +:+ quoted "success" +:+ ":true}").
Definition empty_error_message : value :=
  VStr ("{" +:+ quoted "id" +:+ ":" +:+ quoted "sa_0_1" +:+ "," +:+ quoted "success"
        +:+ ":false," +:+ quoted "error" +:+ ":" +:+ quoted EmptyString +:+ "}").

(** The state after [call("a", "b", {})] on a fresh bridge whose channel
    accepts: request [sa_0_1] is pending. *)
Definition one_pending : state :=
  snd (call (VStr "a") (VStr "b") (VObj ∅) (with_channel accepting initial)).

(** ** The rest of the script *)

(** The function [addListener] returns, when it is called:
    [() => bridge.removeListener(eventName, callback)]. *)
Definition unsubscribe (handle : value * callback) : M unit :=
  removeListener handle.1 handle.2.

(** The load-time notification, [bridge.call("superAppBase", "initialized",
    {})], and the two reactions chained on its promise: [then] prints that
    the host was notified, [catch] prints the error. *)
Definition notify_initialized : M nat :=
  call (VStr "superAppBase") (VStr "initialized") (VObj ∅).

Definition notified (settled : pstate) : M unit :=
  match settled with
  | Fulfilled _ => logger_log "Notified SuperApp that MiniApp is initialized" []
  | Rejected err => logger_error "Error notifying SuperApp:" [err]
  | Pending => mret ()
  end.

(** The script from top to bottom. With [document.readyState] equal to
    ['loading'] the notification waits for [DOMContentLoaded] and nothing is
    called yet; otherwise it is made at once. *)
Definition script (loading : bool) : M (option nat) :=
  logger_log ("Initializing SuperApp Bridge v" +:+ VERSION +:+ "...") [];;
  logger_log "SuperApp Bridge is Ready!" [];;
  if loading then mret None
  else p ← notify_initialized; mret (Some p).

Definition DOMContentLoaded : M nat := notify_initialized.

(** ** Runs in any surroundings *)

(** A run whose calls may meet a [JSON.stringify] or a [postMessage] that
    throws as they please: an operation as above, or a [call] with its
    surroundings. *)
Inductive action :=
| Op (o : op)
| CallIn (serialises : value → bool) (raised : string → value)
    (className methodName params : value).

Section Plays.

Variable JSON_parse : string → option value.
Variable listener : nat → value → state → option value.

Definition act (st : state) (a : action) : state :=
  match a with
  | Op o => step JSON_parse listener st o
  | CallIn serialises raised c m p => snd (call_in serialises raised c m p st)
  end.

Definition play (st : state) (l : list action) : state := foldl act st l.

End Plays.

(** ** Vocabulary of the further properties *)

(** What every run keeps true of entries, timeouts and promises: an entry's
    timeout id, promise and request id were handed out before; a scheduled
    timeout waits for [timeoutDuration] and belongs to an entry; a pending
    promise belongs to an entry whose timeout is scheduled; no two entries
    share a timeout or a promise. An entry may outlive its timeout and its
    promise's settlement: a call that failed while sending can leave one
    behind. *)
Definition pending_inv (st : state) : Prop :=
  (∀ rid e, callbackRegistry st !! rid = Some e →
     e_timeoutId e < nextTimer st
     ∧ e_promise e < length (promises st)
     ∧ ∃ now n, rid = request_id now n ∧ (n < requestIdCounter st)%N)
  ∧ (∀ t tm, timers st !! t = Some tm →
       t_delay tm = timeoutDuration
       ∧ ∃ e, callbackRegistry st !! t_request tm = Some e ∧ e_timeoutId e = t)
  ∧ (∀ p, promises st !! p = Some Pending →
       ∃ rid e, callbackRegistry st !! rid = Some e ∧ e_promise e = p
                ∧ timers st !! e_timeoutId e = Some (Timer rid timeoutDuration))
  ∧ (∀ rid1 rid2 e1 e2,
       callbackRegistry st !! rid1 = Some e1 →
       callbackRegistry st !! rid2 = Some e2 →
       e_timeoutId e1 = e_timeoutId e2 ∨ e_promise e1 = e_promise e2 → rid1 = rid2).

(** The state of a request settled with [o]: its timeout cleared, its
    promise settled, its entry deleted; [lines] is what was printed. *)
Definition settled_state (k : string) (e : entry) (o : pstate) (lines : list log_line)
    (st : state) : state :=
  with_callbackRegistry (delete k (callbackRegistry st))
    (with_promises (settle_in (e_promise e) o (promises st))
       (with_console (console st ++ lines)
          (with_timers (delete (e_timeoutId e) (timers st)) st))).

(** The fields the correspondence is about, unchanged. *)
Definition same_pending (st st' : state) : Prop :=
  callbackRegistry st' = callbackRegistry st
  ∧ timers st' = timers st
  ∧ promises st' = promises st
  ∧ requestIdCounter st' = requestIdCounter st
  ∧ nextTimer st' = nextTimer st.

(** A response from the host, as an object. *)
Definition response_message (rid : string) (success : bool) (fields : gmap string value) : value :=
  VObj (<["id" := VStr rid]> (<["success" := VBool success]> (delete "event" fields))).

Definition is_call (o : op) : bool :=
  match o with OCall _ _ _ => true | _ => false end.

Definition has_channel (st : state) : bool :=
  match channel st with Channel _ => true | NoChannel => false end.

(** A call whose names pass validation. *)
Definition valid_call (o : op) : bool :=
  match o with
  | OCall className methodName _ => nonempty_string className && nonempty_string methodName
  | _ => false
  end.

(** An action that draws a request id: a call whose names pass validation. *)
Definition draws (a : action) : bool :=
  match a with
  | Op o => valid_call o
  | CallIn _ _ className methodName _ =>
      nonempty_string className && nonempty_string methodName
  end.

(** The ids drawn along a run that starts in [st], oldest first: each is
    built from the clock and the counter of the state its call started in. *)
Fixpoint drawn (parse : string → option value) (listener : nat → value → state → option value)
    (st : state) (l : list action) : list string :=
  match l with
  | [] => []
  | a :: l' =>
      (if draws a then [request_id (clock st) (requestIdCounter st)] else [])
        ++ drawn parse listener (act parse listener st a) l'
  end.

(** Every payload handed to [postMessage] carries an id built from a counter
    value already passed. *)
Definition posted_behind (st : state) : Prop :=
  ∀ payload, payload ∈ posted st →
    ∃ now n, payload_id payload = VStr (request_id now n) ∧ (n < requestIdCounter st)%N.

(** The state in which a valid call has stored its entry and scheduled its
    timeout, before it serialises the payload. *)
Definition registered (st : state) : state :=
  let rid := request_id (clock st) (requestIdCounter st) in
  with_callbackRegistry
    (<[rid := Entry (length (promises st)) (clock st) (nextTimer st)]> (callbackRegistry st))
    (with_timers (<[nextTimer st := Timer rid timeoutDuration]> (timers st))
       (with_nextTimer (S (nextTimer st))
          (with_requestIdCounter (requestIdCounter st + 1)%N
             (with_promises (promises st ++ [Pending]) st)))).

(** * Properties *)

(** ** Running the monad *)

Ltac unfold_M :=
  unfold mbind, M_bind, mret, M_ret, gets, modify, throw, try_catch,
    logger_log, logger_error, console_write, Date_now, clearTimeout in *.

Lemma lookup_last_pending (l : list pstate) : (l ++ [Pending]) !! length l = Some Pending.
Proof. apply list_lookup_middle. reflexivity. Qed.

Lemma insert_last_pending (l : list pstate) o : <[length l := o]> (l ++ [Pending]) = l ++ [o].
Proof.
  rewrite insert_app_r_alt by lia. rewrite Nat.sub_diag. reflexivity.
Qed.

(** Settling the promise [call] has just made. *)
Lemma settle_in_last l o : settle_in (length l) o (l ++ [Pending]) = l ++ [o].
Proof.
  unfold settle_in. rewrite lookup_last_pending, insert_last_pending. reflexivity.
Qed.

Lemma nonempty_string_guard v :
  bool_decide (typeof v ≠ TString) || negb (truthy v) = negb (nonempty_string v).
Proof.
  unfold nonempty_string.
  destruct v as [| |[]|z|s|l|m|n e]; simpl; try destruct (String.eqb s EmptyString); reflexivity.
Qed.

Lemma get_slot_own {A} (m : gmap string A) k a : m !! k = Some a → get_slot m k = Own a.
Proof. unfold get_slot. intros ->. reflexivity. Qed.

Lemma get_slot_own_inv {A} (m : gmap string A) k a : get_slot m k = Own a → m !! k = Some a.
Proof.
  unfold get_slot. destruct (m !! k); [congruence|].
  case_bool_decide; discriminate.
Qed.

Lemma get_slot_absent {A} (m : gmap string A) k :
  m !! k = None → k ∉ object_prototype → get_slot m k = Absent.
Proof.
  unfold get_slot. intros -> Hk. rewrite bool_decide_eq_false_2 by assumption. reflexivity.
Qed.

Lemma get_slot_inherited {A} (m : gmap string A) k :
  m !! k = None → k ∈ object_prototype → get_slot m k = Inherited.
Proof.
  unfold get_slot. intros -> Hk. rewrite bool_decide_eq_true_2 by assumption. reflexivity.
Qed.

(** ** The router never throws (C9, C10) *)

Lemma receiveMessage_returns parse listener response st :
  fst (receiveMessage parse listener response st) = Ret ().
Proof.
  unfold receiveMessage, try_catch.
  match goal with |- context [match ?m with _ => _ end] => destruct m as [[[]|e] st'] end;
    reflexivity.
Qed.

Lemma receiveMessage_unparseable parse listener s st :
  parse s = None →
  snd (receiveMessage parse listener (VStr s) st)
  = with_console (console st ++ [received (VStr s); invalid_json s]) st.
Proof.
  intros Hs. unfold receiveMessage, safeParseJSON. rewrite Hs.
  unfold_M. simpl. rewrite <- app_assoc. reflexivity.
Qed.

(** C9. [receiveMessage] returns normally on every argument, whatever the
    parser and the listeners do; on a string that [JSON.parse] rejects it
    prints two lines (the message, the parse error) and changes nothing
    else, so the pending requests, the subscribers and the params store are
    as before. *)
Theorem C9_receiveMessage_never_throws parse listener response st :
  fst (receiveMessage parse listener response st) = Ret ()
  ∧ ∀ s, response = VStr s → parse s = None →
      let st' := snd (receiveMessage parse listener response st) in
      st' = with_console (console st ++ [received response; invalid_json s]) st
      ∧ callbackRegistry st' = callbackRegistry st
      ∧ eventListeners st' = eventListeners st
      ∧ paramsStore st' = paramsStore st.
Proof.
  split; [apply receiveMessage_returns|].
  intros s -> Hs. simpl. rewrite receiveMessage_unparseable by assumption.
  repeat split.
Qed.

Lemma C9_not_json_witness :
  Json.parse "not json" = None
  ∧ receiveMessage Json.parse calm (VStr "not json") one_pending
    = (Ret (),
       with_console (console one_pending
                       ++ [received (VStr "not json"); invalid_json "not json"])
         one_pending).
Proof.
  assert (Json.parse "not json" = None) as Hp by reflexivity.
  split; [exact Hp|].
  destruct (C9_receiveMessage_never_throws Json.parse calm (VStr "not json") one_pending)
    as [Hret Hst].
  destruct (Hst "not json" eq_refl Hp) as [Hst' _].
  rewrite (surjective_pairing (receiveMessage _ _ _ _)), Hret, Hst'. reflexivity.
Defined.

Lemma safeParseJSON_state parse response st :
  ∃ res lines,
    safeParseJSON parse response st = (Ret res, with_console (console st ++ lines) st)
    ∧ (lines = [] ∨ ∃ s, response = VStr s ∧ parse s = None ∧ lines = [invalid_json s]).
Proof.
  assert (with_console (console st ++ []) st = st) as Hnil.
  { rewrite app_nil_r. destruct st; reflexivity. }
  unfold safeParseJSON.
  destruct response as [| |b|z|s|l|m|n e];
    try (eexists _, []; rewrite Hnil; split; [reflexivity|left; reflexivity]).
  destruct (parse s) as [v|] eqn:Hs.
  - eexists _, []. rewrite Hnil. split; [reflexivity|left; reflexivity].
  - eexists VNull, [invalid_json s]. split; [reflexivity|]. right. eauto.
Qed.

(** C10. When what [safeParseJSON] returns is falsy, [receiveMessage]
    returns at once: the state is the one [safeParseJSON] left, which is the
    old one with the message printed (and the parse error, when there was
    one); no listener ran and no request was settled. The JSON texts [0],
    [false], [null] and the empty string literal parse to falsy values, and
    [null] and [0] are falsy as they are. *)
Theorem C10_falsy_message_dropped parse listener response st res :
  fst (safeParseJSON parse response st) = Ret res →
  truthy res = false →
  (∃ lines,
     receiveMessage parse listener response st
     = (Ret (), with_console (console st ++ received response :: lines) st)
     ∧ (lines = [] ∨ ∃ s, response = VStr s ∧ parse s = None ∧ lines = [invalid_json s]))
  ∧ invoked (snd (receiveMessage parse listener response st)) = invoked st
  ∧ correlator (snd (receiveMessage parse listener response st)) = correlator st
  ∧ (∀ s, s ∈ ["0"; "false"; "null"; quoted EmptyString] →
       ∃ v, Json.parse s = Some v ∧ truthy v = false)
  ∧ truthy VNull = false ∧ truthy (VNum 0) = false.
Proof.
  intros Hres Hfalsy.
  set (st0 := with_console (console st ++ [received response]) st).
  destruct (safeParseJSON_state parse response st0) as (res' & lines & Hparse & Hlines).
  assert (res' = res) as ->.
  { destruct (safeParseJSON_state parse response st) as (r & ls & Hp & _).
    rewrite Hp in Hres. simpl in Hres. injection Hres as <-.
    revert Hparse Hp. unfold safeParseJSON.
    destruct response; try (intros [= <-] [= <-]; reflexivity).
    destruct (parse s); intros [= <-] [= <-]; reflexivity. }
  assert (receiveMessage parse listener response st
          = (Ret (), with_console (console st ++ received response :: lines) st)) as Hrun.
  { unfold receiveMessage, try_catch, mbind, M_bind at 1.
    unfold logger_log, console_write, modify. simpl.
    unfold st0, received in Hparse.
    unfold mbind, M_bind. rewrite Hparse, Hfalsy. simpl.
    unfold mret, M_ret. rewrite <- app_assoc. reflexivity. }
  split; [exists lines; split; [exact Hrun|exact Hlines]|].
  rewrite Hrun. simpl. repeat split.
  intros s Hs. rewrite !elem_of_cons, elem_of_nil in Hs.
  destruct Hs as [->|[->|[->|[->|[]]]]]; eexists; split; reflexivity.
Qed.

Lemma C10_zero_witness :
  receiveMessage Json.parse calm (VStr "0") one_pending
  = (Ret (), with_console (console one_pending ++ [received (VStr "0")]) one_pending).
Proof.
  destruct (C10_falsy_message_dropped Json.parse calm (VStr "0") one_pending (VNum 0)
              eq_refl eq_refl) as [(lines & Hrun & [->|(s & Hs & Hnone & _)]) _].
  - exact Hrun.
  - injection Hs as <-. discriminate Hnone.
Defined.

(** ** [call] *)

Ltac unfold_call :=
  unfold call, new_Promise, generateRequestId, setTimeout, postMessage, reject, resolve,
    settle;
  unfold_M; simpl;
  rewrite ?nonempty_string_guard.

Ltac settle_new_promise :=
  rewrite ?settle_in_last; simpl.

Lemma call_invalid_className cn mn params st :
  nonempty_string cn = false →
  call cn mn params st
  = (Ret (length (promises st)),
     with_promises (promises st ++ [Rejected (Error "Invalid className")]) st).
Proof.
  intros Hcn. unfold_call. rewrite Hcn. simpl. settle_new_promise. reflexivity.
Qed.

Lemma call_invalid_methodName cn mn params st :
  nonempty_string cn = true →
  nonempty_string mn = false →
  call cn mn params st
  = (Ret (length (promises st)),
     with_promises (promises st ++ [Rejected (Error "Invalid methodName")]) st).
Proof.
  intros Hcn Hmn. unfold_call. rewrite Hcn, Hmn. simpl. settle_new_promise. reflexivity.
Qed.

(** A generated id never names a member of [Object.prototype]. *)
Lemma request_id_not_inherited now n : request_id now n ∉ object_prototype.
Proof.
  unfold object_prototype. intros H.
  repeat (apply elem_of_cons in H as [H|H];
          [unfold request_id in H; simpl in H; discriminate H|]).
  apply elem_of_nil in H. exact H.
Qed.

Lemma call_no_channel cn mn params st :
  nonempty_string cn = true →
  nonempty_string mn = true →
  channel st = NoChannel →
  let rid := request_id (clock st) (requestIdCounter st) in
  let payload := payload_of rid cn mn (params_or_default params) in
  call cn mn params st
  = (Ret (length (promises st)),
     with_callbackRegistry (delete rid (<[rid := Entry (length (promises st)) (clock st) (nextTimer st)]> (callbackRegistry st)))
       (with_promises (promises st ++ [Rejected (Error "SuperAppChannel is not available!")])
          (with_timers (delete (nextTimer st) (<[nextTimer st := Timer rid timeoutDuration]> (timers st)))
             (with_console (console st ++ [sending payload; Line Err "SuperAppChannel is NOT available!" []])
                (with_nextTimer (S (nextTimer st))
                   (with_requestIdCounter (requestIdCounter st + 1)%N st)))))).
Proof.
  intros Hcn Hmn Hch. unfold_call. rewrite Hcn, Hmn. simpl. rewrite Hch. simpl. settle_new_promise.
  rewrite <- app_assoc. reflexivity.
Qed.

Lemma call_channel cn mn params st post :
  nonempty_string cn = true →
  nonempty_string mn = true →
  channel st = Channel post →
  let rid := request_id (clock st) (requestIdCounter st) in
  let payload := payload_of rid cn mn (params_or_default params) in
  let registered :=
    with_posted (posted st ++ [payload])
      (with_console (console st ++ [sending payload])
         (with_callbackRegistry (<[rid := Entry (length (promises st)) (clock st) (nextTimer st)]> (callbackRegistry st))
            (with_timers (<[nextTimer st := Timer rid timeoutDuration]> (timers st))
               (with_nextTimer (S (nextTimer st))
                  (with_requestIdCounter (requestIdCounter st + 1)%N
                     (with_promises (promises st ++ [Pending]) st)))))) in
  call cn mn params st
  = (Ret (length (promises st)),
     match post payload with
     | None => registered
     | Some msg =>
         with_callbackRegistry (delete rid (callbackRegistry registered))
           (with_promises (promises st ++ [Rejected (Error ("Failed to send message: " +:+ msg))])
              (with_timers (delete (nextTimer st) (timers registered)) registered))
     end).
Proof.
  intros Hcn Hmn Hch. unfold_call. rewrite Hcn, Hmn. simpl. rewrite Hch. simpl.
  destruct (post _) as [msg|]; simpl; settle_new_promise; reflexivity.
Qed.

(** ** [call] in any surroundings *)

Ltac unfold_call_in :=
  unfold call_in, new_Promise, generateRequestId, setTimeout, postMessage_raising,
    JSON_stringify, reject, resolve, settle;
  unfold_M; simpl;
  rewrite ?nonempty_string_guard.

Lemma call_in_invalid_className serialises raised cn mn params st :
  nonempty_string cn = false →
  call_in serialises raised cn mn params st
  = (Ret (length (promises st)),
     with_promises (promises st ++ [Rejected (Error "Invalid className")]) st).
Proof.
  intros Hcn. unfold_call_in. rewrite Hcn. simpl. settle_new_promise. reflexivity.
Qed.

Lemma call_in_invalid_methodName serialises raised cn mn params st :
  nonempty_string cn = true →
  nonempty_string mn = false →
  call_in serialises raised cn mn params st
  = (Ret (length (promises st)),
     with_promises (promises st ++ [Rejected (Error "Invalid methodName")]) st).
Proof.
  intros Hcn Hmn. unfold_call_in. rewrite Hcn, Hmn. simpl. settle_new_promise. reflexivity.
Qed.

(** [JSON.stringify] throws: the executor stops there, with the entry stored
    and the timeout scheduled, and the promise is rejected with what was
    thrown. *)
Lemma call_in_unserialisable serialises raised cn mn params st :
  nonempty_string cn = true →
  nonempty_string mn = true →
  let rid := request_id (clock st) (requestIdCounter st) in
  let payload := payload_of rid cn mn (params_or_default params) in
  serialises payload = false →
  call_in serialises raised cn mn params st
  = (Ret (length (promises st)),
     with_promises
       (promises st ++ [Rejected (TypeError "Converting circular structure to JSON")])
       (registered st)).
Proof.
  intros Hcn Hmn rid payload Hser. unfold_call_in. rewrite Hcn, Hmn. simpl.
  fold rid. fold payload. rewrite Hser. simpl. settle_new_promise. reflexivity.
Qed.

Lemma call_in_no_channel serialises raised cn mn params st :
  nonempty_string cn = true →
  nonempty_string mn = true →
  let rid := request_id (clock st) (requestIdCounter st) in
  let payload := payload_of rid cn mn (params_or_default params) in
  serialises payload = true →
  channel st = NoChannel →
  call_in serialises raised cn mn params st
  = (Ret (length (promises st)),
     with_callbackRegistry (delete rid (callbackRegistry (registered st)))
       (with_promises (promises st ++ [Rejected (Error "SuperAppChannel is not available!")])
          (with_timers (delete (nextTimer st) (timers (registered st)))
             (with_console
                (console st ++ [sending payload; Line Err "SuperAppChannel is NOT available!" []])
                (registered st))))).
Proof.
  intros Hcn Hmn rid payload Hser Hch. unfold_call_in. rewrite Hcn, Hmn. simpl.
  fold rid. fold payload. rewrite Hser. simpl. rewrite Hch. simpl. settle_new_promise.
  rewrite <- app_assoc. reflexivity.
Qed.

Lemma call_in_channel serialises raised cn mn params st post :
  nonempty_string cn = true →
  nonempty_string mn = true →
  let rid := request_id (clock st) (requestIdCounter st) in
  let payload := payload_of rid cn mn (params_or_default params) in
  serialises payload = true →
  channel st = Channel post →
  let sent :=
    with_posted (posted st ++ [payload])
      (with_console (console st ++ [sending payload]) (registered st)) in
  let cleared := with_timers (delete (nextTimer st) (timers sent)) sent in
  call_in serialises raised cn mn params st
  = (Ret (length (promises st)),
     match post payload with
     | None => sent
     | Some lbl =>
         match message_of (raised lbl) with
         | Ret msg =>
             with_callbackRegistry (delete rid (callbackRegistry sent))
               (with_promises
                  (promises st ++ [Rejected (Error ("Failed to send message: " +:+ msg))])
                  cleared)
         | Throw err => with_promises (promises st ++ [Rejected err]) cleared
         end
     end).
Proof.
  intros Hcn Hmn rid payload Hser Hch. unfold_call_in. rewrite Hcn, Hmn. simpl.
  fold rid. fold payload. rewrite Hser. simpl. rewrite Hch. simpl.
  destruct (post payload) as [lbl|]; simpl; [|reflexivity].
  destruct (message_of (raised lbl)) as [msg|err]; simpl; settle_new_promise; reflexivity.
Qed.

(** [call] is [call_in] where [JSON.stringify] returns and what
    [postMessage] throws is an [Error]. *)
Lemma call_call_in cn mn params st :
  call cn mn params st = call_in (λ _, true) Error cn mn params st.
Proof.
  destruct (nonempty_string cn) eqn:Hcn.
  2: { rewrite call_invalid_className, call_in_invalid_className by assumption. reflexivity. }
  destruct (nonempty_string mn) eqn:Hmn.
  2: { rewrite call_invalid_methodName, call_in_invalid_methodName by assumption.
       reflexivity. }
  destruct (channel st) as [|post] eqn:Hch.
  - rewrite call_no_channel, call_in_no_channel by (assumption || reflexivity). reflexivity.
  - rewrite (call_channel _ _ _ _ post), (call_in_channel _ _ _ _ _ _ post)
      by (assumption || reflexivity).
    cbv zeta. destruct (post _) as [lbl|]; reflexivity.
Qed.


(** C3. A local failure does not always leave the registry and the timers
    clean. With valid names [call] stores the entry and schedules the
    timeout first. If [JSON.stringify] then throws, which it does outside
    the [try], the promise is rejected with what it threw, nothing is
    posted, and both the entry and the timeout remain. If [postMessage]
    throws [null] or [undefined], the [catch] clears the timeout and then
    throws itself on reading [e.message]: the promise is rejected with that
    [TypeError] and the entry remains. *)
Theorem C3_failed_call_keeps_entry serialises raised cn mn params st :
  nonempty_string cn = true →
  nonempty_string mn = true →
  let rid := request_id (clock st) (requestIdCounter st) in
  let payload := payload_of rid cn mn (params_or_default params) in
  let e := Entry (length (promises st)) (clock st) (nextTimer st) in
  let st' := snd (call_in serialises raised cn mn params st) in
  (serialises payload = false →
     (∃ msg, promises st' = promises st ++ [Rejected (TypeError msg)])
     ∧ posted st' = posted st
     ∧ callbackRegistry st' !! rid = Some e
     ∧ timers st' !! nextTimer st = Some (Timer rid timeoutDuration))
  ∧ (serialises payload = true →
     ∀ post lbl, channel st = Channel post → post payload = Some lbl →
       raised lbl = VNull ∨ raised lbl = VUndefined →
       (∃ msg, promises st' = promises st ++ [Rejected (TypeError msg)])
       ∧ posted st' = posted st ++ [payload]
       ∧ callbackRegistry st' !! rid = Some e
       ∧ timers st' = delete (nextTimer st) (timers st)).
Proof.
  intros Hcn Hmn rid payload e st'. split.
  - intros Hser.
    pose proof (call_in_unserialisable serialises raised cn mn params st Hcn Hmn Hser) as Hrun.
    unfold st'. rewrite Hrun. simpl. split; [eauto|]. split; [reflexivity|].
    split; apply lookup_insert_eq.
  - intros Hser post lbl Hch Hpost Hnull.
    pose proof (call_in_channel serialises raised cn mn params st post Hcn Hmn Hser Hch)
      as Hrun.
    cbv zeta in Hrun. fold rid in Hrun. fold payload in Hrun. rewrite Hpost in Hrun.
    unfold st'. rewrite Hrun.
    destruct Hnull as [-> | ->]; simpl;
      (split; [eauto|]; split; [reflexivity|];
       split; [apply lookup_insert_eq|apply delete_insert_eq]).
Qed.

Lemma C3_thrown_null_witness :
  let st := with_channel refusing initial in
  let st' := snd (call_in (λ _, true) (λ _, VNull) (VStr "a") (VStr "b") (VObj ∅) st) in
  callbackRegistry st' !! "sa_0_1" = Some (Entry 0 0 0)
  ∧ timers st' = ∅
  ∧ ∃ msg, promises st' = [Rejected (TypeError msg)].
Proof.
  intros st st'.
  destruct (C3_failed_call_keeps_entry (λ _, true) (λ _, VNull) (VStr "a") (VStr "b")
              (VObj ∅) st eq_refl eq_refl) as [_ Hthrown].
  destruct (Hthrown eq_refl (λ _, Some "closed") "closed" eq_refl eq_refl (or_introl eq_refl))
    as (Hp & _ & He & Ht).
  split; [exact He|]. split; [exact Ht|exact Hp].
Defined.

(** X21. The local failures after which nothing is left behind: an invalid
    name, where nothing was stored; and, with valid names and a payload that
    [JSON.stringify] accepts, a missing channel or a [postMessage] that
    throws a value whose [message] can be read and printed, an [Error] for
    one. Then the promise is already rejected when [call] returns, the entry
    the call stored is deleted again and its timeout is cleared. *)
Theorem local_failure_cleaned_up serialises raised cn mn params st :
  let p := length (promises st) in
  let rid := request_id (clock st) (requestIdCounter st) in
  let payload := payload_of rid cn mn (params_or_default params) in
  let st' := snd (call_in serialises raised cn mn params st) in
  (nonempty_string cn = false →
     call_in serialises raised cn mn params st
     = (Ret p, with_promises (promises st ++ [Rejected (Error "Invalid className")]) st))
  ∧ (nonempty_string cn = true → nonempty_string mn = false →
     call_in serialises raised cn mn params st
     = (Ret p, with_promises (promises st ++ [Rejected (Error "Invalid methodName")]) st))
  ∧ (nonempty_string cn = true → nonempty_string mn = true →
     serialises payload = true →
     ∀ reason,
       match channel st with
       | NoChannel => reason = "SuperAppChannel is not available!"
       | Channel post =>
           ∃ lbl msg, post payload = Some lbl ∧ message_of (raised lbl) = Ret msg
                      ∧ reason = "Failed to send message: " +:+ msg
       end →
       fst (call_in serialises raised cn mn params st) = Ret p
       ∧ promises st' = promises st ++ [Rejected (Error reason)]
       ∧ posted st' = match channel st with
                      | NoChannel => posted st
                      | Channel _ => posted st ++ [payload]
                      end
       ∧ callbackRegistry st' = delete rid (callbackRegistry st)
       ∧ timers st' = delete (nextTimer st) (timers st)
       ∧ get_slot (callbackRegistry st') rid = Absent
       ∧ timers st' !! nextTimer st = None).
Proof.
  intros p rid payload st'. split; [|split].
  - apply call_in_invalid_className.
  - apply call_in_invalid_methodName.
  - intros Hcn Hmn Hser reason Hfail.
    assert (callbackRegistry st' = delete rid (callbackRegistry st)
            → get_slot (callbackRegistry st') rid = Absent) as Hslot.
    { intros ->. apply get_slot_absent; [apply lookup_delete_eq|].
      apply request_id_not_inherited. }
    assert (timers st' = delete (nextTimer st) (timers st)
            → timers st' !! nextTimer st = None) as Htimer.
    { intros ->. apply lookup_delete_eq. }
    destruct (channel st) as [|post] eqn:Hch.
    + subst reason.
      pose proof (call_in_no_channel serialises raised cn mn params st Hcn Hmn Hser Hch)
        as Hrun.
      cbv zeta in Hrun.
      assert (callbackRegistry st' = delete rid (callbackRegistry st)) as Hreg.
      { unfold st'. rewrite Hrun. simpl. apply delete_insert_eq. }
      assert (timers st' = delete (nextTimer st) (timers st)) as Htm.
      { unfold st'. rewrite Hrun. simpl. apply delete_insert_eq. }
      split; [rewrite Hrun; reflexivity|].
      split; [unfold st'; rewrite Hrun; reflexivity|].
      split; [unfold st'; rewrite Hrun; reflexivity|]. auto.
    + destruct Hfail as (lbl & msg & Hpost & Hmsg & ->).
      pose proof (call_in_channel serialises raised cn mn params st post Hcn Hmn Hser Hch)
        as Hrun.
      cbv zeta in Hrun. fold rid in Hrun. fold payload in Hrun.
      rewrite Hpost, Hmsg in Hrun.
      assert (callbackRegistry st' = delete rid (callbackRegistry st)) as Hreg.
      { unfold st'. rewrite Hrun. simpl. apply delete_insert_eq. }
      assert (timers st' = delete (nextTimer st) (timers st)) as Htm.
      { unfold st'. rewrite Hrun. simpl. apply delete_insert_eq. }
      split; [rewrite Hrun; reflexivity|].
      split; [unfold st'; rewrite Hrun; reflexivity|].
      split; [unfold st'; rewrite Hrun; reflexivity|]. auto.
Qed.

Lemma local_failure_cleaned_up_witness :
  let st := with_channel refusing one_pending in
  let st' := snd (call_in (λ _, true) Error (VStr "a") (VStr "b") (VObj ∅) st) in
  promises st' = [Pending; Rejected (Error "Failed to send message: closed")]
  ∧ callbackRegistry st' = callbackRegistry one_pending
  ∧ timers st' = timers one_pending.
Proof.
  intros st st'.
  destruct (local_failure_cleaned_up (λ _, true) Error (VStr "a") (VStr "b") (VObj ∅) st)
    as (_ & _ & Hfail).
  destruct (Hfail eq_refl eq_refl eq_refl "Failed to send message: closed")
    as (_ & Hp & _ & Hreg & Htm & _).
  { exists "closed", "closed". repeat split. }
  fold st' in Hp, Hreg, Htm.
  rewrite Hp, Hreg, Htm. repeat split; vm_compute; reflexivity.
Defined.

(** X22. In any surroundings [call] never throws: it returns the handle of
    a promise it has just made, after the promises that were there. That
    promise is left pending exactly when both names are non-empty strings,
    [JSON.stringify] returned, the channel is there and its [postMessage]
    returned; the entry is then stored, the timeout scheduled and the
    payload posted. In every other case the promise is already rejected,
    with an [Error] or a [TypeError]. *)
Theorem call_in_returns_promise serialises raised cn mn params st :
  let rid := request_id (clock st) (requestIdCounter st) in
  let payload := payload_of rid cn mn (params_or_default params) in
  let accepted :=
    nonempty_string cn && nonempty_string mn && serialises payload
    && match channel st with
       | Channel post => bool_decide (post payload = None)
       | NoChannel => false
       end in
  let st' := snd (call_in serialises raised cn mn params st) in
  fst (call_in serialises raised cn mn params st) = Ret (length (promises st))
  ∧ ∃ o, promises st' = promises st ++ [o]
         ∧ if accepted
           then o = Pending
                ∧ callbackRegistry st' !! rid
                  = Some (Entry (length (promises st)) (clock st) (nextTimer st))
                ∧ timers st' !! nextTimer st = Some (Timer rid timeoutDuration)
                ∧ posted st' = posted st ++ [payload]
           else ∃ name msg, o = Rejected (VError name msg)
                            ∧ (name = "Error" ∨ name = "TypeError").
Proof.
  intros rid payload accepted st'. unfold accepted, st'.
  destruct (nonempty_string cn) eqn:Hcn.
  2: { rewrite call_in_invalid_className by assumption. simpl.
       split; [reflexivity|]. eexists. split; [reflexivity|]. eauto. }
  destruct (nonempty_string mn) eqn:Hmn.
  2: { rewrite call_in_invalid_methodName by assumption. simpl.
       split; [reflexivity|]. eexists. split; [reflexivity|]. eauto. }
  destruct (serialises payload) eqn:Hser.
  2: { pose proof (call_in_unserialisable serialises raised cn mn params st Hcn Hmn Hser)
         as Hrun.
       rewrite Hrun. simpl. split; [reflexivity|]. eexists. split; [reflexivity|]. eauto. }
  destruct (channel st) as [|post] eqn:Hch.
  - pose proof (call_in_no_channel serialises raised cn mn params st Hcn Hmn Hser Hch) as Hrun.
    rewrite Hrun. simpl. split; [reflexivity|]. eexists. split; [reflexivity|]. eauto.
  - pose proof (call_in_channel serialises raised cn mn params st post Hcn Hmn Hser Hch)
      as Hrun.
    cbv zeta in Hrun. fold rid in Hrun. fold payload in Hrun. rewrite Hrun.
    split; [reflexivity|].
    destruct (post payload) as [lbl|]; simpl.
    + destruct (message_of (raised lbl)) as [msg|err] eqn:Hmsg; simpl.
      * eexists. split; [reflexivity|]. eauto.
      * eexists. split; [reflexivity|].
        destruct (raised lbl) as [| | | | | |m|]; simpl in Hmsg; try discriminate Hmsg;
          try (injection Hmsg as <-; eauto).
        destruct (stringable _); [discriminate Hmsg|]. injection Hmsg as <-. eauto.
    + eexists. split; [reflexivity|].
      split; [reflexivity|]. split; [apply lookup_insert_eq|].
      split; [apply lookup_insert_eq|reflexivity].
Qed.

(** ** Settling a request *)

Ltac unfold_handle :=
  unfold handleSuccess, handleFailure, timeout_callback, fire, resolve, reject, settle;
  unfold_M; simpl.

Lemma handleSuccess_absent rid resp st :
  get_slot (callbackRegistry st) (to_string rid) = Absent →
  handleSuccess rid resp st = (Ret (), st).
Proof. intros H. unfold_handle. rewrite H. reflexivity. Qed.

Lemma handleFailure_absent rid err st :
  get_slot (callbackRegistry st) (to_string rid) = Absent →
  handleFailure rid err st = (Ret (), st).
Proof. intros H. unfold_handle. rewrite H. reflexivity. Qed.

Lemma handleSuccess_own rid resp st e :
  callbackRegistry st !! to_string rid = Some e →
  handleSuccess rid resp st
  = (Ret (),
     with_callbackRegistry (delete (to_string rid) (callbackRegistry st))
       (with_promises (settle_in (e_promise e) (Fulfilled resp) (promises st))
          (with_console
             (console st ++
                [Line Info "Success Response:" [resp];
                 Line Info ("Request took "
                            +:+ pretty (Z.of_N (clock st) - Z.of_N (e_timestamp e))%Z
                            +:+ "ms") []])
             (with_timers (delete (e_timeoutId e) (timers st)) st)))).
Proof.
  intros H. unfold_handle. rewrite (get_slot_own _ _ _ H). simpl.
  rewrite <- app_assoc. reflexivity.
Qed.

Lemma handleFailure_own rid err st e :
  callbackRegistry st !! to_string rid = Some e →
  handleFailure rid err st
  = (Ret (),
     with_callbackRegistry (delete (to_string rid) (callbackRegistry st))
       (with_promises (settle_in (e_promise e) (Rejected err) (promises st))
          (with_console (console st ++ [Line Err "Error Response:" [err]])
             (with_timers (delete (e_timeoutId e) (timers st)) st)))).
Proof.
  intros H. unfold_handle. rewrite (get_slot_own _ _ _ H). reflexivity.
Qed.

Lemma handleSuccess_inherited rid resp st :
  get_slot (callbackRegistry st) (to_string rid) = Inherited →
  handleSuccess rid resp st
  = (Throw (TypeError "callbackRegistry[requestId].resolve is not a function"),
     with_console
       (console st ++
          [Line Info "Success Response:" [resp]; Line Info "Request took NaNms" []]) st).
Proof.
  intros H. unfold_handle. rewrite H. simpl. rewrite <- app_assoc. reflexivity.
Qed.

Lemma handleFailure_inherited rid err st :
  get_slot (callbackRegistry st) (to_string rid) = Inherited →
  handleFailure rid err st
  = (Throw (TypeError "callbackRegistry[requestId].reject is not a function"),
     with_console (console st ++ [Line Err "Error Response:" [err]]) st).
Proof. intros H. unfold_handle. rewrite H. reflexivity. Qed.

(** The timer's callback is [handleFailure] with the timeout payload: its
    own test of the registry is the one [handleFailure] makes again. *)
Lemma timeout_callback_handleFailure rid st :
  timeout_callback rid st = handleFailure (VStr rid) timeout_error st.
Proof.
  unfold timeout_callback, mbind, M_bind, gets.
  destruct (get_slot (callbackRegistry st) rid) eqn:Hslot; try reflexivity.
  symmetry. apply handleFailure_absent. exact Hslot.
Qed.

(** After a settlement the id has no entry. *)
Lemma handleSuccess_removes rid resp st e :
  callbackRegistry st !! to_string rid = Some e →
  to_string rid ∉ object_prototype →
  get_slot (callbackRegistry (snd (handleSuccess rid resp st))) (to_string rid) = Absent.
Proof.
  intros H Hk. rewrite (handleSuccess_own _ _ _ _ H). simpl.
  apply get_slot_absent; [apply lookup_delete_eq|exact Hk].
Qed.

Lemma handleFailure_removes rid err st e :
  callbackRegistry st !! to_string rid = Some e →
  to_string rid ∉ object_prototype →
  get_slot (callbackRegistry (snd (handleFailure rid err st))) (to_string rid) = Absent.
Proof.
  intros H Hk. rewrite (handleFailure_own _ _ _ _ H). simpl.
  apply get_slot_absent; [apply lookup_delete_eq|exact Hk].
Qed.

(** For an id that names no member of [Object.prototype] (every generated
    id is one): whichever of success, failure and timeout comes first
    removes the entry, and each of the three is then without effect. *)
Lemma settle_at_most_once rid st e st1 :
  callbackRegistry st !! rid = Some e →
  rid ∉ object_prototype →
  (∃ resp, st1 = snd (handleSuccess (VStr rid) resp st))
  ∨ (∃ err, st1 = snd (handleFailure (VStr rid) err st))
  ∨ st1 = snd (timeout_callback rid st) →
  (∀ resp, handleSuccess (VStr rid) resp st1 = (Ret (), st1))
  ∧ (∀ err, handleFailure (VStr rid) err st1 = (Ret (), st1))
  ∧ timeout_callback rid st1 = (Ret (), st1).
Proof.
  intros H Hk Hfirst.
  assert (get_slot (callbackRegistry st1) (to_string (VStr rid)) = Absent) as Habs.
  { destruct Hfirst as [[resp ->]|[[err ->]| ->]].
    - eapply handleSuccess_removes; eassumption.
    - eapply handleFailure_removes; eassumption.
    - rewrite timeout_callback_handleFailure. eapply handleFailure_removes; eassumption. }
  split; [|split].
  - intros resp. apply handleSuccess_absent, Habs.
  - intros err. apply handleFailure_absent, Habs.
  - rewrite timeout_callback_handleFailure. apply handleFailure_absent, Habs.
Qed.

(** C1, where the code departs from it. For an id that names a member of
    [Object.prototype] and has no entry, [callbackRegistry[requestId]] is
    the inherited member, the guard passes, and [handleSuccess] and
    [handleFailure] print and then throw a [TypeError]. *)
Theorem C1_inherited_id_throws k v st :
  k ∈ object_prototype →
  callbackRegistry st !! k = None →
  handleSuccess (VStr k) v st
  = (Throw (TypeError "callbackRegistry[requestId].resolve is not a function"),
     with_console
       (console st ++
          [Line Info "Success Response:" [v]; Line Info "Request took NaNms" []]) st)
  ∧ handleFailure (VStr k) v st
    = (Throw (TypeError "callbackRegistry[requestId].reject is not a function"),
       with_console (console st ++ [Line Err "Error Response:" [v]]) st).
Proof.
  intros Hk Hnone.
  assert (get_slot (callbackRegistry st) (to_string (VStr k)) = Inherited) as Hslot
    by (apply get_slot_inherited; assumption).
  split; [apply handleSuccess_inherited|apply handleFailure_inherited]; exact Hslot.
Qed.

Lemma C1_toString_witness :
  fst (handleSuccess (VStr "toString") VUndefined initial)
  = Throw (TypeError "callbackRegistry[requestId].resolve is not a function").
Proof.
  assert ("toString" ∈ object_prototype) as Hk
    by (apply (bool_decide_unpack _); reflexivity).
  destruct (C1_inherited_id_throws "toString" VUndefined initial Hk eq_refl) as [Hs _].
  rewrite Hs. reflexivity.
Defined.

(** ** The timeout (C5) *)

(** C5, as the code has it. The timeout's callback is [handleFailure(id,
    {error: "Request Timeout"})]. While the request is pending it clears
    the timer, rejects the promise with that payload and removes the entry;
    with no entry for the id it does nothing. For a generated id, once a
    response has settled the request the timeout does nothing, and once the
    timeout has settled it a response does nothing. *)
Theorem C5_timeout_is_handleFailure now n st :
  let rid := request_id now n in
  timeout_callback rid st = handleFailure (VStr rid) timeout_error st
  ∧ (∀ t d, timers st !! t = Some (Timer rid d) →
       fire t st
       = handleFailure (VStr rid) timeout_error (with_timers (delete t (timers st)) st))
  ∧ (callbackRegistry st !! rid = None → timeout_callback rid st = (Ret (), st))
  ∧ (∀ e, callbackRegistry st !! rid = Some e →
       timeout_callback rid st
       = (Ret (),
          with_callbackRegistry (delete rid (callbackRegistry st))
            (with_promises (settle_in (e_promise e) (Rejected timeout_error) (promises st))
               (with_console (console st ++ [Line Err "Error Response:" [timeout_error]])
                  (with_timers (delete (e_timeoutId e) (timers st)) st))))
       ∧ (∀ resp, let st1 := snd (handleSuccess (VStr rid) resp st) in
                  timeout_callback rid st1 = (Ret (), st1))
       ∧ (∀ err, let st1 := snd (handleFailure (VStr rid) err st) in
                 timeout_callback rid st1 = (Ret (), st1))
       ∧ (let st1 := snd (timeout_callback rid st) in
          ∀ v, handleSuccess (VStr rid) v st1 = (Ret (), st1)
               ∧ handleFailure (VStr rid) v st1 = (Ret (), st1))).
Proof.
  intros rid.
  assert (rid ∉ object_prototype) as Hk by apply request_id_not_inherited.
  split; [apply timeout_callback_handleFailure|]. split; [|split].
  - intros t d Ht. unfold fire, mbind, M_bind, gets, modify. rewrite Ht. simpl.
    apply timeout_callback_handleFailure.
  - intros Hnone. rewrite timeout_callback_handleFailure.
    apply handleFailure_absent, get_slot_absent; assumption.
  - intros e He. split; [|split; [|split]].
    + rewrite timeout_callback_handleFailure. apply (handleFailure_own (VStr rid)), He.
    + intros resp st1.
      apply (settle_at_most_once rid st e st1 He Hk). left. eexists; reflexivity.
    + intros err st1.
      apply (settle_at_most_once rid st e st1 He Hk). right; left. eexists; reflexivity.
    + intros st1 v.
      destruct (settle_at_most_once rid st e st1 He Hk) as (Hs & Hf & _); [auto|].
      split; [apply Hs|apply Hf].
Qed.

Lemma C5_timeout_witness :
  promises (snd (timeout_callback "sa_0_1" one_pending)) = [Rejected timeout_error]
  ∧ get_slot (callbackRegistry (snd (timeout_callback "sa_0_1" one_pending))) "sa_0_1" = Absent.
Proof.
  destruct (C5_timeout_is_handleFailure 0 1 one_pending) as (_ & _ & _ & Hpending).
  destruct (Hpending (Entry 0 0 0) eq_refl) as (Hrun & _).
  change (request_id 0 1) with "sa_0_1" in Hrun.
  rewrite Hrun. split; reflexivity.
Defined.

(** The claim's payload is not the code's: with request [sa_0_1] pending,
    the timeout rejects its promise with [{error: "Request Timeout"}], while
    [handleFailure(id, {reason: "timeout"})] would reject it with that other
    object. *)
Lemma C5_timeout_payload_counterexample :
  timeout_callback "sa_0_1" one_pending
  ≠ handleFailure (VStr "sa_0_1") spec_timeout_error one_pending.
Proof.
  intros H.
  apply (f_equal (λ r, match promises (snd r) with
                       | [Rejected v] => prop v "reason"
                       | _ => VNull
                       end)) in H.
  vm_compute in H. discriminate H.
Qed.

(** ** The dispatcher (C6) *)

Lemma forEach_listener_runs listener key data l : ∀ st,
  ∃ lines,
    forEach_listener listener key data l st
    = (Ret (),
       with_invoked (invoked st ++ map (λ f, (f, data)) l)
         (with_console (console st ++ lines) st))
    ∧ Forall (λ ln, ∃ e, ln = listener_error key e) lines.
Proof.
  induction l as [|f l IH]; intros st.
  - exists []. split; [|constructor]. simpl. rewrite !app_nil_r.
    destruct st; reflexivity.
  - simpl. unfold mbind, M_bind, try_catch, invoke.
    destruct (listener f data st) as [e|].
    + unfold logger_error, console_write, modify.
      match goal with |- context [forEach_listener _ _ _ _ ?s] =>
        destruct (IH s) as (lines & -> & Hlines) end.
      exists (listener_error key e :: lines). split; [|constructor; eauto].
      simpl. rewrite <- !app_assoc. reflexivity.
    + match goal with |- context [forEach_listener _ _ _ _ ?s] =>
        destruct (IH s) as (lines & -> & Hlines) end.
      exists lines. split; [|exact Hlines].
      simpl. rewrite <- !app_assoc. reflexivity.
Qed.

Lemma dispatchEvent_absent listener name data st :
  get_slot (eventListeners st) (to_string name) = Absent →
  dispatchEvent listener name data st
  = (Ret (), with_console (console st ++ [dispatching (to_string name) data]) st).
Proof.
  intros H. unfold dispatchEvent. unfold_M. simpl. rewrite H. reflexivity.
Qed.

Lemma dispatchEvent_inherited listener name data st :
  get_slot (eventListeners st) (to_string name) = Inherited →
  dispatchEvent listener name data st
  = (Throw (TypeError "eventListeners[eventName].forEach is not a function"),
     with_console (console st ++ [dispatching (to_string name) data]) st).
Proof.
  intros H. unfold dispatchEvent. unfold_M. simpl. rewrite H. reflexivity.
Qed.

(** With a subscriber list, every listener on it is invoked with [data], in
    the order of the list; what a listener throws is printed and goes no
    further; nothing but the record of invocations and the console
    changes. *)
Lemma dispatchEvent_own listener name data st l :
  eventListeners st !! to_string name = Some l →
  ∃ lines,
    dispatchEvent listener name data st
    = (Ret (),
       with_invoked (invoked st ++ map (λ f, (f, data)) l)
         (with_console (console st ++ dispatching (to_string name) data :: lines) st))
    ∧ Forall (λ ln, ∃ e, ln = listener_error (to_string name) e) lines.
Proof.
  intros H. unfold dispatchEvent. unfold_M. simpl. rewrite (get_slot_own _ _ _ H).
  match goal with |- context [forEach_listener _ _ _ _ ?s] =>
    destruct (forEach_listener_runs listener (to_string name) data l s)
      as (lines & -> & Hlines) end.
  exists lines. split; [|exact Hlines]. simpl. rewrite <- app_assoc. reflexivity.
Qed.

(** [addListener] puts the new listener at the end of the list, so the
    order of a list is the order of subscription. *)
Lemma addListener_appends name f st l :
  nonempty_string name = true →
  eventListeners st !! to_string name = Some l →
  addListener name (Fn f) st
  = (Ret (Some (name, Fn f)),
     with_console (console st ++ [Line Info ("Added listener for event: " +:+ to_string name) []])
       (with_eventListeners (<[to_string name := l ++ [f]]> (eventListeners st)) st)).
Proof.
  intros Hname H. unfold addListener. rewrite nonempty_string_guard, Hname. simpl.
  unfold_M. simpl. rewrite (get_slot_own _ _ _ H). simpl.
  rewrite (get_slot_own _ _ _ H). reflexivity.
Qed.

Lemma addListener_first name f st :
  nonempty_string name = true →
  get_slot (eventListeners st) (to_string name) = Absent →
  addListener name (Fn f) st
  = (Ret (Some (name, Fn f)),
     with_console (console st ++ [Line Info ("Added listener for event: " +:+ to_string name) []])
       (with_eventListeners (<[to_string name := [f]]> (eventListeners st)) st)).
Proof.
  intros Hname H. unfold addListener. rewrite nonempty_string_guard, Hname. simpl.
  unfold_M. simpl. rewrite H. simpl.
  rewrite (get_slot_own _ _ [] (lookup_insert_eq _ _ _)). simpl.
  rewrite insert_insert_eq. reflexivity.
Qed.

Lemma addListener_inherited name f st :
  nonempty_string name = true →
  get_slot (eventListeners st) (to_string name) = Inherited →
  addListener name (Fn f) st
  = (Throw (TypeError "eventListeners[eventName].push is not a function"), st).
Proof.
  intros Hname H. unfold addListener. rewrite nonempty_string_guard, Hname. simpl.
  unfold_M. simpl. rewrite H. simpl. rewrite H. reflexivity.
Qed.

(** C6, where the code departs from it. An event name that names a member
    of [Object.prototype] and has no subscriber list passes the guard
    [!eventListeners[eventName]], and then [forEach] is not there:
    [dispatchEvent] throws a [TypeError] to its caller. *)
Theorem C6_inherited_name_throws listener k data st :
  k ∈ object_prototype →
  eventListeners st !! k = None →
  dispatchEvent listener (VStr k) data st
  = (Throw (TypeError "eventListeners[eventName].forEach is not a function"),
     with_console (console st ++ [dispatching k data]) st).
Proof.
  intros Hk Hnone. apply (dispatchEvent_inherited listener (VStr k)).
  apply get_slot_inherited; assumption.
Qed.

Lemma C6_toString_witness :
  fst (dispatchEvent calm (VStr "toString") VNull initial)
  = Throw (TypeError "eventListeners[eventName].forEach is not a function").
Proof.
  assert ("toString" ∈ object_prototype) as Hk
    by (apply (bool_decide_unpack _); reflexivity).
  rewrite (C6_inherited_name_throws calm "toString" VNull initial Hk eq_refl).
  reflexivity.
Defined.

(** Two listeners, the first throws: the second is still invoked, the error
    is printed and [dispatchEvent] returns. *)
Example dispatch_first_throws :
  let st := snd (addListener (VStr "e") (Fn 2) (snd (addListener (VStr "e") (Fn 1) initial))) in
  let r := dispatchEvent first_throws (VStr "e") (VNum 7) st in
  fst r = Ret ()
  ∧ invoked (snd r) = [(1, VNum 7); (2, VNum 7)]
  ∧ last (console (snd r)) = Some (listener_error "e" (Error "boom")).
Proof. repeat split. Qed.

(** ** What the functions leave alone *)

Lemma preserves_ret {A} P (a : A) : preserves P (mret a).
Proof. intros st H. exact H. Qed.

Lemma preserves_throw {A} P e : preserves P (throw e : M A).
Proof. intros st H. exact H. Qed.

Lemma preserves_gets {A} P (f : state → A) : preserves P (gets f).
Proof. intros st H. exact H. Qed.

Lemma preserves_bind {A B} P (m : M A) (f : A → M B) :
  preserves P m → (∀ a, preserves P (f a)) → preserves P (m ≫= f).
Proof.
  intros Hm Hf st H. unfold mbind, M_bind.
  specialize (Hm st H). destruct (m st) as [[a|e] st']; simpl in *.
  - apply Hf, Hm.
  - exact Hm.
Qed.

Lemma preserves_try_catch {A} P (m : M A) (h : value → M A) :
  preserves P m → (∀ e, preserves P (h e)) → preserves P (try_catch m h).
Proof.
  intros Hm Hh st H. unfold try_catch.
  specialize (Hm st H). destruct (m st) as [[a|e] st']; simpl in *.
  - exact Hm.
  - apply Hh, Hm.
Qed.

Lemma preserves_modify P (f : state → state) :
  (∀ st, P st → P (f st)) → preserves P (modify f).
Proof. intros Hf st H. apply Hf, H. Qed.

Section Preservation.

Variable P : state → Prop.

(** What [P] may have to tolerate: a console line other than the one
    [call] prints, and a change to one of the other fields. *)
Hypothesis P_console : ∀ st lv text args,
  text ≠ "Sending to Flutter:" →
  P st → P (with_console (console st ++ [Line lv text args]) st).
Hypothesis P_invoked : ∀ st x, P st → P (with_invoked x st).
Hypothesis P_timers : ∀ st x, P st → P (with_timers x st).
Hypothesis P_promises : ∀ st x, P st → P (with_promises x st).
Hypothesis P_registry : ∀ st x, P st → P (with_callbackRegistry x st).
Hypothesis P_params : ∀ st x, P st → P (with_paramsStore x st).

Lemma logger_log_preserves text args :
  text ≠ "Sending to Flutter:" → preserves P (logger_log text args).
Proof using P_console.
  intros Htext. unfold logger_log, console_write. simpl.
  apply preserves_modify. intros st. apply P_console, Htext.
Qed.

Lemma logger_error_preserves text args :
  text ≠ "Sending to Flutter:" → preserves P (logger_error text args).
Proof using P_console.
  intros Htext. unfold logger_error, console_write.
  apply preserves_modify. intros st. apply P_console, Htext.
Qed.

Lemma clearTimeout_preserves t : preserves P (clearTimeout t).
Proof using P_timers.
  destruct t; simpl; [|apply preserves_ret].
  apply preserves_modify. intros st. apply P_timers.
Qed.

Lemma settle_preserves p o : preserves P (settle p o).
Proof using P_promises.
  apply preserves_modify. intros st. apply P_promises.
Qed.

Lemma invoke_preserves listener f data : preserves P (invoke listener f data).
Proof using P_invoked.
  intros st H. unfold invoke. destruct (listener f data st); simpl; apply P_invoked, H.
Qed.

Ltac other_text := simpl; discriminate.

Ltac step_preserves :=
  first
    [ apply preserves_ret
    | apply preserves_throw
    | apply preserves_gets
    | apply logger_log_preserves; other_text
    | apply logger_error_preserves; other_text
    | apply clearTimeout_preserves
    | apply settle_preserves
    | apply invoke_preserves
    | apply preserves_bind; [|intros ?]
    | apply preserves_try_catch; [|intros ?] ].

Lemma safeParseJSON_preserves parse str : preserves P (safeParseJSON parse str).
Proof using P_console.
  unfold safeParseJSON. destruct str; try apply preserves_ret.
  destruct (parse s); repeat step_preserves.
Qed.

Lemma handleSuccess_preserves rid resp : preserves P (handleSuccess rid resp).
Proof using P_console P_timers P_promises P_registry.
  unfold handleSuccess, resolve. apply preserves_bind; [apply preserves_gets|].
  intros reg. destruct (get_slot reg (to_string rid)); repeat step_preserves.
  apply preserves_modify. intros st. apply P_registry.
Qed.

Lemma handleFailure_preserves rid err : preserves P (handleFailure rid err).
Proof using P_console P_timers P_promises P_registry.
  unfold handleFailure, reject. apply preserves_bind; [apply preserves_gets|].
  intros reg. destruct (get_slot reg (to_string rid)); repeat step_preserves.
  apply preserves_modify. intros st. apply P_registry.
Qed.

Lemma timeout_callback_preserves rid : preserves P (timeout_callback rid).
Proof using P_console P_timers P_promises P_registry.
  unfold timeout_callback. apply preserves_bind; [apply preserves_gets|].
  intros reg. destruct (get_slot reg rid);
    try apply handleFailure_preserves; apply preserves_ret.
Qed.

Lemma fire_preserves t : preserves P (fire t).
Proof using P_console P_timers P_promises P_registry.
  unfold fire. apply preserves_bind; [apply preserves_gets|].
  intros scheduled. destruct (scheduled !! t); [|apply preserves_ret].
  apply preserves_bind; [|intros ?; apply timeout_callback_preserves].
  apply preserves_modify. intros st. apply P_timers.
Qed.

Lemma forEach_listener_preserves listener key data l :
  preserves P (forEach_listener listener key data l).
Proof using P_console P_invoked.
  induction l as [|f l IH]; simpl; [apply preserves_ret|].
  apply preserves_bind; [|intros ?; exact IH].
  repeat step_preserves.
Qed.

Lemma dispatchEvent_preserves listener name data :
  preserves P (dispatchEvent listener name data).
Proof using P_console P_invoked.
  unfold dispatchEvent. repeat step_preserves.
  match goal with |- context [get_slot ?m ?k] => destruct (get_slot m k) end;
    try apply forEach_listener_preserves; repeat step_preserves.
Qed.

Lemma setParams_preserves listener newParams : preserves P (setParams listener newParams).
Proof using P_console P_invoked P_params.
  unfold setParams.
  destruct (bool_decide (typeof newParams ≠ TObject) || is_null newParams).
  - repeat step_preserves.
  - apply preserves_bind; [apply preserves_modify; intros st; apply P_params|intros ?].
    apply preserves_bind; [apply preserves_gets|intros store].
    apply preserves_bind; [|intros ?; apply dispatchEvent_preserves].
    apply logger_log_preserves. discriminate.
Qed.

Lemma getParams_preserves key : preserves P (getParams key).
Proof using Type.
  unfold getParams. apply preserves_bind; [apply preserves_gets|].
  intros store. destruct (truthy key); apply preserves_ret.
Qed.

Lemma receiveMessage_preserves parse listener response :
  preserves P (receiveMessage parse listener response).
Proof using P_console P_invoked P_timers P_promises P_registry.
  unfold receiveMessage. apply preserves_try_catch.
  - apply preserves_bind; [apply logger_log_preserves; discriminate|intros ?].
    apply preserves_bind; [apply safeParseJSON_preserves|intros res].
    destruct (negb (truthy res)); [apply preserves_ret|].
    destruct (truthy (prop res "event")); [apply dispatchEvent_preserves|].
    destruct (truthy (prop res "id") && _); [|apply preserves_ret].
    destruct (truthy (prop res "success"));
      [apply handleSuccess_preserves|apply handleFailure_preserves].
  - intros e. apply logger_error_preserves. discriminate.
Qed.

End Preservation.

(** ** The subscriber table (C7) *)

Lemma addListener_invalid_name name cb st :
  nonempty_string name = false →
  addListener name cb st
  = (Ret None, with_console (console st ++ [Line Err "Invalid event name" []]) st).
Proof.
  intros Hname. unfold addListener. rewrite nonempty_string_guard, Hname. reflexivity.
Qed.

Lemma addListener_not_function name v st :
  nonempty_string name = true →
  addListener name (NotFn v) st
  = (Ret None,
     with_console (console st ++ [Line Err "Event callback must be a function" []]) st).
Proof.
  intros Hname. unfold addListener. rewrite nonempty_string_guard, Hname. reflexivity.
Qed.

Lemma removeListener_absent name cb st :
  get_slot (eventListeners st) (to_string name) = Absent →
  removeListener name cb st = (Ret (), st).
Proof. intros H. unfold removeListener. unfold_M. rewrite H. reflexivity. Qed.

Lemma removeListener_inherited name cb st :
  get_slot (eventListeners st) (to_string name) = Inherited →
  removeListener name cb st
  = (Throw (TypeError "eventListeners[eventName].filter is not a function"), st).
Proof. intros H. unfold removeListener. unfold_M. rewrite H. reflexivity. Qed.

(** The table after [removeListener] found a list: the list without the
    entries equal to the callback, or no entry when none is left. *)
Lemma removeListener_own name cb st l :
  eventListeners st !! to_string name = Some l →
  let l' := filter (λ f, cb ≠ Fn f) l in
  fst (removeListener name cb st) = Ret ()
  ∧ eventListeners (snd (removeListener name cb st))
    = (if bool_decide (length l' = 0)
       then delete (to_string name) (eventListeners st)
       else <[to_string name := l']> (eventListeners st))
  ∧ ∃ lines,
      snd (removeListener name cb st)
      = with_console (console st ++ lines)
          (with_eventListeners (eventListeners (snd (removeListener name cb st))) st)
      ∧ Forall (λ ln, l_text ln ≠ "Sending to Flutter:") lines.
Proof.
  intros H l'. unfold removeListener. unfold_M. rewrite (get_slot_own _ _ _ H).
  fold l'. simpl.
  destruct (bool_decide (length l ≠ length l')); simpl;
    destruct (bool_decide (length l' = 0)); simpl;
    rewrite ?delete_insert_eq;
    (split; [reflexivity|split; [reflexivity|]]).
  1,2: eexists [_]; split; [reflexivity|]; repeat constructor; simpl; discriminate.
  1,2: exists []; split; [rewrite app_nil_r; destruct st; reflexivity|constructor].
Qed.

Lemma listeners_inv_same st st' :
  eventListeners st' = eventListeners st → listeners_inv st → listeners_inv st'.
Proof. unfold listeners_inv. intros ->. auto. Qed.

Lemma call_eventListeners cn mn params st :
  eventListeners (snd (call cn mn params st)) = eventListeners st.
Proof.
  destruct (nonempty_string cn) eqn:Hcn;
    [|rewrite call_invalid_className by assumption; reflexivity].
  destruct (nonempty_string mn) eqn:Hmn;
    [|rewrite call_invalid_methodName by assumption; reflexivity].
  destruct (channel st) as [|post] eqn:Hch.
  - rewrite call_no_channel by assumption. reflexivity.
  - rewrite (call_channel _ _ _ _ post) by assumption. simpl.
    destruct (post _); reflexivity.
Qed.

Lemma addListener_listeners_inv name cb st :
  listeners_inv st → listeners_inv (snd (addListener name cb st)).
Proof.
  intros Hinv.
  destruct (nonempty_string name) eqn:Hname;
    [|rewrite addListener_invalid_name by assumption; exact Hinv].
  destruct cb as [f|v]; [|rewrite addListener_not_function by assumption; exact Hinv].
  destruct (get_slot (eventListeners st) (to_string name)) as [l| |] eqn:Hslot.
  - assert (eventListeners st !! to_string name = Some l) as Hl
      by apply get_slot_own_inv, Hslot.
    rewrite (addListener_appends _ _ _ l) by assumption. simpl.
    intros k l0. simpl. rewrite lookup_insert. case_decide.
    + intros [= <-]. destruct l; discriminate.
    + apply Hinv.
  - rewrite addListener_inherited by assumption. exact Hinv.
  - rewrite addListener_first by assumption.
    intros k l0. simpl. rewrite lookup_insert. case_decide.
    + intros [= <-]. discriminate.
    + apply Hinv.
Qed.

Lemma removeListener_listeners_inv name cb st :
  listeners_inv st → listeners_inv (snd (removeListener name cb st)).
Proof.
  intros Hinv.
  destruct (get_slot (eventListeners st) (to_string name)) as [l| |] eqn:Hslot.
  - assert (eventListeners st !! to_string name = Some l) as Hl
      by apply get_slot_own_inv, Hslot.
    destruct (removeListener_own name cb st l Hl) as (_ & Htable & _).
    intros k l0. rewrite Htable. case_bool_decide as Hlen.
    + rewrite lookup_delete. case_decide; [discriminate|apply Hinv].
    + rewrite lookup_insert. case_decide; [|apply Hinv].
      intros [= <-] Hnil. apply Hlen. rewrite Hnil. reflexivity.
  - rewrite removeListener_inherited by assumption. exact Hinv.
  - rewrite removeListener_absent by assumption. exact Hinv.
Qed.

Lemma step_listeners_inv parse listener st o :
  listeners_inv st → listeners_inv (step parse listener st o).
Proof.
  assert (∀ st x, listeners_inv st → listeners_inv (with_invoked x st)) as Hi by auto.
  assert (∀ st x, listeners_inv st → listeners_inv (with_timers x st)) as Ht by auto.
  assert (∀ st x, listeners_inv st → listeners_inv (with_promises x st)) as Hp by auto.
  assert (∀ st x, listeners_inv st → listeners_inv (with_callbackRegistry x st)) as Hr by auto.
  assert (∀ st x, listeners_inv st → listeners_inv (with_paramsStore x st)) as Hs by auto.
  assert (∀ st lv text args, text ≠ "Sending to Flutter:" → listeners_inv st →
            listeners_inv (with_console (console st ++ [Line lv text args]) st)) as Hc by auto.
  intros Hinv. destruct o; simpl.
  - eapply listeners_inv_same; [apply call_eventListeners|exact Hinv].
  - apply handleSuccess_preserves; auto.
  - apply handleFailure_preserves; auto.
  - apply addListener_listeners_inv, Hinv.
  - apply removeListener_listeners_inv, Hinv.
  - apply dispatchEvent_preserves; auto.
  - exact Hinv.
  - apply setParams_preserves; auto.
  - apply getParams_preserves; auto.
  - apply receiveMessage_preserves; auto.
  - apply fire_preserves; auto.
  - exact Hinv.
  - exact Hinv.
Qed.

Lemma run_listeners_inv parse listener tr : ∀ st,
  listeners_inv st → listeners_inv (run parse listener st tr).
Proof.
  induction tr as [|o tr IH]; intros st Hinv; [exact Hinv|].
  simpl. apply IH, step_listeners_inv, Hinv.
Qed.

(** The names of the members of [Object.prototype] never get a list of
    their own. *)
Lemma in_prototype_nonempty k : k ∈ object_prototype → nonempty_string (VStr k) = true.
Proof.
  intros Hk. destruct k as [|c k]; [|reflexivity].
  exfalso. revert Hk. apply (bool_decide_unpack _). reflexivity.
Qed.

Lemma addListener_no_inherited name cb st :
  (∀ k, k ∈ object_prototype → eventListeners st !! k = None) →
  ∀ k, k ∈ object_prototype → eventListeners (snd (addListener name cb st)) !! k = None.
Proof.
  intros Hinv k Hk.
  destruct (nonempty_string name) eqn:Hname;
    [|rewrite addListener_invalid_name by assumption; apply Hinv, Hk].
  destruct cb as [f|v]; [|rewrite addListener_not_function by assumption; apply Hinv, Hk].
  destruct (get_slot (eventListeners st) (to_string name)) as [l| |] eqn:Hslot.
  - apply get_slot_own_inv in Hslot.
    rewrite (addListener_appends _ _ _ l) by assumption. simpl.
    rewrite lookup_insert_ne; [apply Hinv, Hk|].
    intros <-. rewrite (Hinv _ Hk) in Hslot. discriminate Hslot.
  - rewrite addListener_inherited by assumption. apply Hinv, Hk.
  - rewrite addListener_first by assumption. simpl.
    rewrite lookup_insert_ne; [apply Hinv, Hk|].
    intros <-. rewrite get_slot_inherited in Hslot; [discriminate Hslot|apply Hinv, Hk|exact Hk].
Qed.

Lemma removeListener_no_inherited name cb st :
  (∀ k, k ∈ object_prototype → eventListeners st !! k = None) →
  ∀ k, k ∈ object_prototype → eventListeners (snd (removeListener name cb st)) !! k = None.
Proof.
  intros Hinv k Hk.
  destruct (get_slot (eventListeners st) (to_string name)) as [l| |] eqn:Hslot.
  - apply get_slot_own_inv in Hslot.
    destruct (removeListener_own name cb st l Hslot) as (_ & -> & _).
    assert (to_string name ≠ k) as Hne
      by (intros <-; rewrite (Hinv _ Hk) in Hslot; discriminate Hslot).
    case_bool_decide.
    + rewrite lookup_delete_ne by exact Hne. apply Hinv, Hk.
    + rewrite lookup_insert_ne by exact Hne. apply Hinv, Hk.
  - rewrite removeListener_inherited by assumption. apply Hinv, Hk.
  - rewrite removeListener_absent by assumption. apply Hinv, Hk.
Qed.

Lemma step_no_inherited parse listener st o :
  (∀ k, k ∈ object_prototype → eventListeners st !! k = None) →
  ∀ k, k ∈ object_prototype → eventListeners (step parse listener st o) !! k = None.
Proof.
  intros Hinv k Hk.
  set (P := λ s : state, eventListeners s !! k = None).
  assert (P st) as HP by apply Hinv, Hk.
  assert (∀ st x, P st → P (with_invoked x st)) as Hi by auto.
  assert (∀ st x, P st → P (with_timers x st)) as Ht by auto.
  assert (∀ st x, P st → P (with_promises x st)) as Hp by auto.
  assert (∀ st x, P st → P (with_callbackRegistry x st)) as Hr by auto.
  assert (∀ st x, P st → P (with_paramsStore x st)) as Hs by auto.
  assert (∀ st lv text args, text ≠ "Sending to Flutter:" → P st →
            P (with_console (console st ++ [Line lv text args]) st)) as Hc by auto.
  destruct o; simpl.
  - unfold P. rewrite call_eventListeners. exact HP.
  - apply (handleSuccess_preserves P); auto.
  - apply (handleFailure_preserves P); auto.
  - apply addListener_no_inherited; assumption.
  - apply removeListener_no_inherited; assumption.
  - apply (dispatchEvent_preserves P); auto.
  - exact HP.
  - apply (setParams_preserves P); auto.
  - apply (getParams_preserves P); auto.
  - apply (receiveMessage_preserves P); auto.
  - apply (fire_preserves P); auto.
  - exact HP.
  - exact HP.
Qed.

Lemma run_no_inherited parse listener tr : ∀ st,
  (∀ k, k ∈ object_prototype → eventListeners st !! k = None) →
  ∀ k, k ∈ object_prototype → eventListeners (run parse listener st tr) !! k = None.
Proof.
  induction tr as [|o tr IH]; intros st Hinv; [exact Hinv|].
  simpl. apply IH, step_no_inherited, Hinv.
Qed.

(** C7. [addListener] does not create a list on the first registration for
    every name. For a name that names a member of [Object.prototype] the
    guard [!eventListeners[eventName]] finds the inherited member, no list
    is made, and [push] is not there: [addListener] throws a [TypeError] and
    registers nothing. This is so in every state the bridge can reach, since
    such a name never gets a list; [removeListener] throws for it as well. *)
Theorem C7_inherited_name_never_registered parse listener tr k f :
  k ∈ object_prototype →
  let st := run parse listener initial tr in
  eventListeners st !! k = None
  ∧ addListener (VStr k) (Fn f) st
    = (Throw (TypeError "eventListeners[eventName].push is not a function"), st)
  ∧ removeListener (VStr k) (Fn f) st
    = (Throw (TypeError "eventListeners[eventName].filter is not a function"), st).
Proof.
  intros Hk st.
  assert (eventListeners st !! k = None) as Hnone.
  { apply run_no_inherited; [|exact Hk]. intros k' _. apply lookup_empty. }
  split; [exact Hnone|]. split.
  - apply addListener_inherited; [apply in_prototype_nonempty, Hk|].
    apply get_slot_inherited; assumption.
  - apply removeListener_inherited. apply get_slot_inherited; assumption.
Qed.

Lemma C7_toString_witness :
  addListener (VStr "toString") (Fn 1) initial
  = (Throw (TypeError "eventListeners[eventName].push is not a function"), initial)
  ∧ getRegisteredEvents initial = (Ret [], initial).
Proof.
  assert ("toString" ∈ object_prototype) as Hk
    by (apply (bool_decide_unpack _); reflexivity).
  destruct (C7_inherited_name_never_registered Json.parse calm [] "toString" 1 Hk)
    as (_ & Hadd & _).
  split; [exact Hadd|reflexivity].
Defined.

(** X20. No operation leaves an empty list in the subscriber table, so the
    names [getRegisteredEvents] returns are exactly the names with at least
    one listener. For a string name, [addListener] makes the list when the
    lookup of the name finds nothing, inherited members included, and
    appends to the list when there is one; [removeListener] drops every
    entry equal to the callback and deletes the name's entry when nothing is
    left. *)
Theorem listener_table_invariant parse listener :
  listeners_inv initial
  ∧ (∀ st o, listeners_inv st → listeners_inv (step parse listener st o))
  ∧ (∀ tr, listeners_inv (run parse listener initial tr))
  ∧ (∀ st, listeners_inv st →
       ∃ names, getRegisteredEvents st = (Ret names, st)
         ∧ NoDup names
         ∧ ∀ k, k ∈ names ↔ ∃ l, eventListeners st !! k = Some l ∧ l ≠ [])
  ∧ (∀ st s f, nonempty_string (VStr s) = true →
       get_slot (eventListeners st) s = Absent →
       eventListeners (snd (addListener (VStr s) (Fn f) st))
       = <[s := [f]]> (eventListeners st))
  ∧ (∀ st s f l, nonempty_string (VStr s) = true →
       eventListeners st !! s = Some l →
       eventListeners (snd (addListener (VStr s) (Fn f) st))
       = <[s := l ++ [f]]> (eventListeners st))
  ∧ (∀ st s cb l, eventListeners st !! s = Some l →
       let l' := filter (λ f, cb ≠ Fn f) l in
       (∀ f, f ∈ l' ↔ f ∈ l ∧ cb ≠ Fn f)
       ∧ eventListeners (snd (removeListener (VStr s) cb st))
         = if bool_decide (l' = [])
           then delete s (eventListeners st)
           else <[s := l']> (eventListeners st)).
Proof.
  split; [intros k l; simpl; rewrite lookup_empty; discriminate|].
  split; [intros st o; apply step_listeners_inv|].
  split; [intros tr; apply run_listeners_inv; intros k l; simpl;
          rewrite lookup_empty; discriminate|].
  split; [|split; [|split]].
  - intros st Hinv. eexists. split; [reflexivity|]. split.
    + apply NoDup_fst_map_to_list.
    + intros k. rewrite list_elem_of_fmap. split.
      * intros ([k' l] & -> & Hin). apply elem_of_map_to_list in Hin.
        exists l. split; [exact Hin|]. eapply Hinv, Hin.
      * intros (l & Hl & _). exists (k, l). split; [reflexivity|].
        apply elem_of_map_to_list, Hl.
  - intros st s f Hname Hslot. rewrite addListener_first by assumption. reflexivity.
  - intros st s f l Hname Hl. rewrite (addListener_appends _ _ _ l) by assumption.
    reflexivity.
  - intros st s cb l Hl l'. split.
    + intros f. unfold l'. rewrite list_elem_of_filter. tauto.
    + destruct (removeListener_own (VStr s) cb st l Hl) as (_ & Heq & _).
      simpl in Heq. rewrite Heq. fold l'.
      destruct l'; reflexivity.
Qed.

Lemma listener_table_invariant_witness :
  let st := snd (addListener (VStr "ready") (Fn 4) initial) in
  eventListeners st = {[ "ready" := [4] ]}
  ∧ eventListeners (snd (removeListener (VStr "ready") (Fn 4) st)) = ∅.
Proof.
  intros st.
  destruct (listener_table_invariant Json.parse calm)
    as (_ & _ & _ & _ & Hadd & _ & Hremove).
  assert (eventListeners st = {[ "ready" := [4] ]}) as Hst.
  { unfold st. rewrite (Hadd initial "ready" 4 eq_refl eq_refl). reflexivity. }
  split; [exact Hst|].
  destruct (Hremove st "ready" (Fn 4) [4]) as (_ & ->).
  { rewrite Hst. reflexivity. }
  rewrite Hst. reflexivity.
Defined.

(** ** Request ids (C4) *)

Lemma pretty_N_go_digits x : ∀ s,
  all_digits s = true → all_digits (pretty_N_go x s) = true.
Proof.
  induction (N.lt_wf_0 x) as [x _ IH]. intros s Hs.
  destruct (decide (x = 0)%N) as [->|Hx]; [exact Hs|].
  rewrite pretty_N_go_step by lia.
  apply IH; [apply N.div_lt; lia|].
  simpl. rewrite Hs, andb_true_r.
  unfold pretty_N_char. repeat case_match; reflexivity.
Qed.

Lemma pretty_N_digits (n : N) : all_digits (pretty n) = true.
Proof.
  unfold pretty, pretty_N. case_decide; [reflexivity|].
  apply pretty_N_go_digits. reflexivity.
Qed.

(** Digits hold no underscore, so the text before the first underscore and
    the text after it are determined. *)
Lemma digits_underscore_split a : ∀ a' b b',
  all_digits a = true → all_digits a' = true →
  a +:+ "_" +:+ b = a' +:+ "_" +:+ b' → a = a' ∧ b = b'.
Proof.
  induction a as [|c a IH]; intros [|c' a'] b b' Ha Ha' Heq; simpl in Ha, Ha'.
  - change (String "_" b = String "_" b') in Heq. injection Heq as ->. auto.
  - change (String "_" b = String c' (a' +:+ "_" +:+ b')) in Heq.
    injection Heq as <- _. apply andb_true_iff in Ha' as [Hc _].
    vm_compute in Hc. discriminate Hc.
  - change (String c (a +:+ "_" +:+ b) = String "_" b') in Heq.
    injection Heq as -> _. apply andb_true_iff in Ha as [Hc _].
    vm_compute in Hc. discriminate Hc.
  - change (String c (a +:+ "_" +:+ b) = String c' (a' +:+ "_" +:+ b')) in Heq.
    injection Heq as -> Heq.
    apply andb_true_iff in Ha as [_ Ha]. apply andb_true_iff in Ha' as [_ Ha'].
    destruct (IH a' b b' Ha Ha' Heq) as [-> ->]. auto.
Qed.

(** Ids built from different counter values differ, whatever the clock
    said. *)
Lemma request_id_inj now n now' n' :
  request_id now n = request_id now' n' → now = now' ∧ n = n'.
Proof.
  unfold request_id. intros Heq.
  change ("sa_" +:+ ?x) with (String "s" (String "a" (String "_" x))) in Heq.
  injection Heq as Heq.
  apply digits_underscore_split in Heq as [Hnow Hn]; try apply pretty_N_digits.
  split; eapply (inj pretty); eassumption.
Qed.

Lemma sent_id_other lv text args :
  text ≠ "Sending to Flutter:" → sent_id (Line lv text args) = None.
Proof. intros H. unfold sent_id. simpl. rewrite bool_decide_eq_false_2; auto. Qed.

Lemma issued_console lines st :
  issued (with_console (console st ++ lines) st) = issued st ++ omap sent_id lines.
Proof. unfold issued. simpl. apply omap_app. Qed.

Lemma issued_other_lines lines st :
  Forall (λ ln, l_text ln ≠ "Sending to Flutter:") lines →
  issued (with_console (console st ++ lines) st) = issued st.
Proof.
  intros H. rewrite issued_console.
  rewrite <- (app_nil_r (issued st)) at 2. f_equal.
  induction H as [|[lv text args] lines Hln _ IH]; [reflexivity|].
  simpl. rewrite sent_id_other by exact Hln. exact IH.
Qed.

Lemma same_ids_refl st : same_ids st st.
Proof. repeat split. Qed.

Lemma same_ids_line st lv text args :
  text ≠ "Sending to Flutter:" →
  same_ids st (with_console (console st ++ [Line lv text args]) st).
Proof.
  intros H. split; [|split; reflexivity].
  apply issued_other_lines. constructor; [exact H|constructor].
Qed.

(** The part of the state the ids live in, held fixed. *)
Lemma same_ids_preserved {A} (m : M A) st :
  (∀ L c ps, preserves (λ s, issued s = L ∧ requestIdCounter s = c ∧ posted s = ps) m) →
  same_ids st (snd (m st)).
Proof. intros H. apply (H _ _ _ st). repeat split. Qed.

Ltac fixed_ids :=
  try (intros ? ? ? ? ? (<- & <- & <-); repeat split;
       apply issued_other_lines; constructor; [assumption|constructor]);
  try (intros ? ? (<- & <- & <-); repeat split).

Lemma addListener_same_ids name cb st : same_ids st (snd (addListener name cb st)).
Proof.
  destruct (nonempty_string name) eqn:Hname;
    [|rewrite addListener_invalid_name by assumption; apply same_ids_line; discriminate].
  destruct cb as [f|v];
    [|rewrite addListener_not_function by assumption; apply same_ids_line; discriminate].
  destruct (get_slot (eventListeners st) (to_string name)) as [l| |] eqn:Hslot.
  - assert (eventListeners st !! to_string name = Some l) as Hl
      by apply get_slot_own_inv, Hslot.
    rewrite (addListener_appends _ _ _ l) by assumption.
    apply (same_ids_line (with_eventListeners _ st)). simpl. discriminate.
  - rewrite addListener_inherited by assumption. apply same_ids_refl.
  - rewrite addListener_first by assumption.
    apply (same_ids_line (with_eventListeners _ st)). simpl. discriminate.
Qed.

Lemma removeListener_same_ids name cb st : same_ids st (snd (removeListener name cb st)).
Proof.
  destruct (get_slot (eventListeners st) (to_string name)) as [l| |] eqn:Hslot.
  - assert (eventListeners st !! to_string name = Some l) as Hl
      by apply get_slot_own_inv, Hslot.
    destruct (removeListener_own name cb st l Hl) as (_ & _ & lines & -> & Hlines).
    split; [|split; reflexivity].
    apply (issued_other_lines lines (with_eventListeners _ st)), Hlines.
  - rewrite removeListener_inherited by assumption. apply same_ids_refl.
  - rewrite removeListener_absent by assumption. apply same_ids_refl.
Qed.

(** A call with valid names issues the id built from the clock and the
    counter, moves the counter on by one, and invokes [postMessage] once
    when there is a channel and not at all when there is none. *)
Lemma call_valid_ids cn mn params st :
  nonempty_string cn = true →
  nonempty_string mn = true →
  let rid := request_id (clock st) (requestIdCounter st) in
  let st' := snd (call cn mn params st) in
  issued st' = issued st ++ [rid]
  ∧ requestIdCounter st' = (requestIdCounter st + 1)%N
  ∧ posted st'
    = match channel st with
      | NoChannel => posted st
      | Channel _ => posted st ++ [payload_of rid cn mn (params_or_default params)]
      end.
Proof.
  intros Hcn Hmn rid st'. unfold st'. destruct (channel st) as [|post] eqn:Hch.
  - rewrite call_no_channel by assumption. unfold issued. simpl.
    rewrite omap_app. repeat split.
  - rewrite (call_channel _ _ _ _ post) by assumption. unfold issued. simpl.
    destruct (post _); simpl; rewrite omap_app; repeat split.
Qed.

Lemma call_invalid_same_ids cn mn params st :
  nonempty_string cn && nonempty_string mn = false →
  same_ids st (snd (call cn mn params st)).
Proof.
  intros H. destruct (nonempty_string cn) eqn:Hcn.
  - rewrite call_invalid_methodName by assumption. repeat split.
  - rewrite call_invalid_className by assumption. repeat split.
Qed.

Lemma step_same_ids parse listener st o :
  is_call o = false → same_ids st (step parse listener st o).
Proof.
  intros Ho.
  destruct o; simpl; try discriminate Ho; try (repeat split; fail).
  - apply same_ids_preserved. intros. apply handleSuccess_preserves; fixed_ids.
  - apply same_ids_preserved. intros. apply handleFailure_preserves; fixed_ids.
  - apply addListener_same_ids.
  - apply removeListener_same_ids.
  - apply same_ids_preserved. intros. apply dispatchEvent_preserves; fixed_ids.
  - apply same_ids_preserved. intros. apply setParams_preserves; fixed_ids.
  - apply same_ids_preserved. intros. apply getParams_preserves.
  - apply same_ids_preserved. intros. apply receiveMessage_preserves; fixed_ids.
  - apply same_ids_preserved. intros. apply fire_preserves; fixed_ids.
Qed.

(** What a call with valid names does to the state, in any surroundings:
    the counter, the timer id and the list of promises move on by one; the
    entry and the timeout are there or not; the payload is posted when it
    was serialised and there is a channel. A promise left pending has its
    timeout, and a timeout has its entry. *)
Lemma call_in_valid serialises raised cn mn params st :
  nonempty_string cn = true →
  nonempty_string mn = true →
  let rid := request_id (clock st) (requestIdCounter st) in
  let payload := payload_of rid cn mn (params_or_default params) in
  ∃ (o : pstate) (kept timed : bool) (lines : list log_line),
    snd (call_in serialises raised cn mn params st)
    = with_posted
        (if serialises payload && has_channel st then posted st ++ [payload] else posted st)
        (with_console (console st ++ lines)
           (with_callbackRegistry
              (if kept
               then <[rid := Entry (length (promises st)) (clock st) (nextTimer st)]>
                      (callbackRegistry st)
               else delete rid (callbackRegistry st))
              (with_timers
                 (if timed
                  then <[nextTimer st := Timer rid timeoutDuration]> (timers st)
                  else delete (nextTimer st) (timers st))
                 (with_nextTimer (S (nextTimer st))
                    (with_requestIdCounter (requestIdCounter st + 1)%N
                       (with_promises (promises st ++ [o]) st))))))
    ∧ (o = Pending → timed = true)
    ∧ (timed = true → kept = true).
Proof.
  intros Hcn Hmn rid payload. unfold has_channel.
  destruct (serialises payload) eqn:Hser.
  2: { pose proof (call_in_unserialisable serialises raised cn mn params st Hcn Hmn Hser)
         as Hrun.
       rewrite Hrun.
       exists (Rejected (TypeError "Converting circular structure to JSON")), true, true, [].
       simpl. rewrite app_nil_r.
       split; [reflexivity|]. split; [discriminate|reflexivity]. }
  destruct (channel st) as [|post] eqn:Hch.
  - pose proof (call_in_no_channel serialises raised cn mn params st Hcn Hmn Hser Hch) as Hrun.
    rewrite Hrun.
    exists (Rejected (Error "SuperAppChannel is not available!")), false, false,
      [sending payload; Line Err "SuperAppChannel is NOT available!" []].
    simpl. rewrite !delete_insert_eq.
    split; [reflexivity|]. split; discriminate.
  - pose proof (call_in_channel serialises raised cn mn params st post Hcn Hmn Hser Hch)
      as Hrun.
    cbv zeta in Hrun. fold rid in Hrun. fold payload in Hrun. rewrite Hrun.
    destruct (post payload) as [lbl|].
    + destruct (message_of (raised lbl)) as [msg|err].
      * exists (Rejected (Error ("Failed to send message: " +:+ msg))), false, false,
          [sending payload].
        simpl. rewrite !delete_insert_eq.
        split; [reflexivity|]. split; discriminate.
      * exists (Rejected err), true, false, [sending payload].
        simpl. rewrite !delete_insert_eq.
        split; [reflexivity|]. split; discriminate.
    + exists Pending, true, true, [sending payload].
      simpl. split; [reflexivity|]. split; reflexivity.
Qed.

(** The counter and the posted payloads after a call in any surroundings. *)
Lemma call_in_ids serialises raised cn mn params st :
  let valid := nonempty_string cn && nonempty_string mn in
  let rid := request_id (clock st) (requestIdCounter st) in
  let payload := payload_of rid cn mn (params_or_default params) in
  let st' := snd (call_in serialises raised cn mn params st) in
  requestIdCounter st' = (requestIdCounter st + if valid then 1 else 0)%N
  ∧ posted st' = if valid && serialises payload && has_channel st
                 then posted st ++ [payload] else posted st.
Proof.
  intros valid rid payload st'. unfold valid, st'.
  destruct (nonempty_string cn) eqn:Hcn.
  2: { rewrite call_in_invalid_className by assumption. simpl. split; [lia|reflexivity]. }
  destruct (nonempty_string mn) eqn:Hmn.
  2: { rewrite call_in_invalid_methodName by assumption. simpl. split; [lia|reflexivity]. }
  destruct (call_in_valid serialises raised cn mn params st Hcn Hmn)
    as (o & kept & timed & lines & -> & _).
  simpl. split; reflexivity.
Qed.

(** One action: the counter moves by one exactly when the action draws an
    id, and at most the payload of that id is posted. *)
Lemma act_ids parse listener st a :
  let st' := act parse listener st a in
  requestIdCounter st' = (requestIdCounter st + if draws a then 1 else 0)%N
  ∧ (posted st' = posted st
     ∨ draws a = true
       ∧ ∃ c m p, posted st'
                  = posted st ++ [payload_of (request_id (clock st) (requestIdCounter st)) c m p]).
Proof.
  assert (∀ s r c m p,
            let st' := snd (call_in s r c m p st) in
            requestIdCounter st'
            = (requestIdCounter st + if nonempty_string c && nonempty_string m then 1 else 0)%N
            ∧ (posted st' = posted st
               ∨ nonempty_string c && nonempty_string m = true
                 ∧ ∃ c' m' p', posted st'
                     = posted st
                         ++ [payload_of (request_id (clock st) (requestIdCounter st)) c' m' p']))
    as Hcall.
  { intros s r c m p st'. destruct (call_in_ids s r c m p st) as [Hc Hp].
    split; [exact Hc|]. fold st' in Hp. rewrite Hp.
    destruct (nonempty_string c && nonempty_string m); [|left; reflexivity].
    simpl. destruct (s _ && has_channel st); [|left; reflexivity].
    right. split; [reflexivity|]. eauto. }
  destruct a as [o|s r c m p]; [|apply Hcall].
  destruct (is_call o) eqn:Ho.
  - destruct o; try discriminate Ho. simpl. rewrite call_call_in. apply Hcall.
  - destruct (step_same_ids parse listener st o Ho) as (_ & Hc & Hp).
    assert (draws (Op o) = false) as -> by (destruct o; try discriminate Ho; reflexivity).
    simpl. split; [rewrite Hc; lia|left; exact Hp].
Qed.

Lemma play_counter parse listener l : ∀ st,
  (requestIdCounter st ≤ requestIdCounter (play parse listener st l))%N.
Proof.
  induction l as [|a l IH]; intros st; [simpl; lia|].
  simpl. etransitivity; [|apply IH].
  destruct (act_ids parse listener st a) as [-> _]. lia.
Qed.

Lemma play_app parse listener st l1 l2 :
  play parse listener st (l1 ++ l2) = play parse listener (play parse listener st l1) l2.
Proof. apply foldl_app. Qed.

Lemma drawn_app parse listener l1 l2 : ∀ st,
  drawn parse listener st (l1 ++ l2)
  = drawn parse listener st l1 ++ drawn parse listener (play parse listener st l1) l2.
Proof.
  induction l1 as [|a l1 IH]; intros st; [reflexivity|].
  simpl. rewrite IH, app_assoc. reflexivity.
Qed.

(** Every id drawn along a run was built from a counter value between the
    one the run started at and the one it ended at. *)
Lemma drawn_counter parse listener l : ∀ st id,
  id ∈ drawn parse listener st l →
  ∃ now n, id = request_id now n
           ∧ (requestIdCounter st ≤ n < requestIdCounter (play parse listener st l))%N.
Proof.
  induction l as [|a l IH]; intros st id Hin; [inversion Hin|].
  simpl in Hin. apply elem_of_app in Hin as [Hin|Hin].
  - destruct (draws a) eqn:Ha; [|inversion Hin].
    apply list_elem_of_singleton in Hin as ->.
    exists (clock st), (requestIdCounter st). split; [reflexivity|].
    split; [lia|]. simpl.
    pose proof (play_counter parse listener l (act parse listener st a)) as Hle.
    destruct (act_ids parse listener st a) as [Hc _]. rewrite Ha in Hc. lia.
  - destruct (IH _ _ Hin) as (now & n & -> & Hlo & Hhi).
    exists now, n. split; [reflexivity|]. split; [|exact Hhi].
    destruct (act_ids parse listener st a) as [Hc _].
    destruct (draws a); lia.
Qed.

(** No id is drawn twice. *)
Lemma drawn_NoDup parse listener l : ∀ st, NoDup (drawn parse listener st l).
Proof.
  induction l as [|a l IH]; intros st; [constructor|].
  simpl. apply NoDup_app. split; [|split; [|apply IH]].
  - destruct (draws a); [apply NoDup_singleton|constructor].
  - intros id Hin Hlater.
    destruct (draws a) eqn:Ha; [|inversion Hin].
    apply list_elem_of_singleton in Hin as ->.
    destruct (drawn_counter _ _ _ _ _ Hlater) as (now & n & Heq & Hlo & _).
    apply request_id_inj in Heq as [_ <-].
    destruct (act_ids parse listener st a) as [Hc _]. rewrite Ha in Hc. lia.
Qed.

Lemma act_posted_behind parse listener st a :
  posted_behind st → posted_behind (act parse listener st a).
Proof.
  intros Hinv payload Hin.
  destruct (act_ids parse listener st a) as [Hc [Hp|(Ha & c & m & p & Hp)]].
  - rewrite Hp in Hin. destruct (Hinv _ Hin) as (now & n & Hid & Hlt).
    exists now, n. split; [exact Hid|]. rewrite Hc. lia.
  - rewrite Hp in Hin. rewrite Hc, Ha.
    apply elem_of_app in Hin as [Hin|Hin].
    + destruct (Hinv _ Hin) as (now & n & Hid & Hlt).
      exists now, n. split; [exact Hid|lia].
    + apply list_elem_of_singleton in Hin as ->.
      eexists _, _. split; [reflexivity|lia].
Qed.

Lemma play_posted_behind parse listener l : ∀ st,
  posted_behind st → posted_behind (play parse listener st l).
Proof.
  induction l as [|a l IH]; intros st Hinv; [exact Hinv|].
  simpl. apply IH, act_posted_behind, Hinv.
Qed.

(** C4, as the code has it. After any run from the start of the script,
    whatever happened to the earlier calls, a call with valid names builds
    its id from the clock and the counter, which started at 1 and moves on
    by one; the id differs from the id of every earlier call and of every
    payload posted before. [postMessage] is invoked exactly once, with that
    id in the payload, when [JSON.stringify] returned and the channel is
    there; otherwise nothing is posted. *)
Theorem C4_valid_call_fresh_id parse listener tr serialises raised cn mn params :
  nonempty_string cn = true →
  nonempty_string mn = true →
  let st := play parse listener initial tr in
  let rid := request_id (clock st) (requestIdCounter st) in
  let payload := payload_of rid cn mn (params_or_default params) in
  let st' := snd (call_in serialises raised cn mn params st) in
  requestIdCounter initial = 1%N
  ∧ requestIdCounter st' = (requestIdCounter st + 1)%N
  ∧ drawn parse listener initial (tr ++ [CallIn serialises raised cn mn params])
    = drawn parse listener initial tr ++ [rid]
  ∧ (rid ∉ drawn parse listener initial tr)
  ∧ NoDup (drawn parse listener initial tr)
  ∧ (∀ earlier, earlier ∈ posted st → payload_id earlier ≠ VStr rid)
  ∧ payload_id payload = VStr rid
  ∧ posted st' = (if serialises payload && has_channel st
                  then posted st ++ [payload] else posted st).
Proof.
  intros Hcn Hmn st rid payload st'.
  destruct (call_in_ids serialises raised cn mn params st) as [Hc Hp].
  rewrite Hcn, Hmn in Hc, Hp. simpl in Hc, Hp.
  split; [reflexivity|]. split; [exact Hc|].
  split; [|split; [|split; [apply drawn_NoDup|split; [|split; [reflexivity|exact Hp]]]]].
  - rewrite drawn_app. simpl. rewrite Hcn, Hmn. reflexivity.
  - intros Hin. destruct (drawn_counter _ _ _ _ _ Hin) as (now & n & Heq & _ & Hlt).
    apply request_id_inj in Heq as [_ <-]. fold st in Hlt. lia.
  - intros earlier Hin Hid.
    assert (posted_behind st) as Hinv.
    { apply play_posted_behind. intros x Hx. inversion Hx. }
    destruct (Hinv _ Hin) as (now & n & Hid' & Hlt).
    assert (rid = request_id now n) as Heq by congruence.
    apply request_id_inj in Heq as [_ <-]. lia.
Qed.

Lemma C4_second_call_witness :
  let tr := [Op (OChannel accepting); CallIn (λ _, false) Error (VStr "a") (VStr "b") (VObj ∅)] in
  let st := play Json.parse calm initial tr in
  let st' := snd (call_in (λ _, true) Error (VStr "c") (VStr "d") VUndefined st) in
  drawn Json.parse calm initial tr = ["sa_0_1"]
  ∧ posted st = []
  ∧ posted st' = [payload_of "sa_0_2" (VStr "c") (VStr "d") (VObj ∅)].
Proof.
  intros tr st st'.
  destruct (C4_valid_call_fresh_id Json.parse calm tr (λ _, true) Error
              (VStr "c") (VStr "d") VUndefined eq_refl eq_refl)
    as (_ & _ & _ & _ & _ & _ & _ & Hposted).
  split; [reflexivity|]. split; [reflexivity|exact Hposted].
Defined.

(** The claim's "exactly one outbound message" fails without a channel: a
    call with valid names on the fresh bridge, where [SuperAppChannel] is
    missing, posts nothing. *)
Lemma C4_no_channel_counterexample :
  ¬ (∀ cn mn params st,
       nonempty_string cn = true → nonempty_string mn = true →
       ∃ payload, posted (snd (call cn mn params st)) = posted st ++ [payload]).
Proof.
  intros H.
  destruct (H (VStr "a") (VStr "b") (VObj ∅) initial eq_refl eq_refl) as [payload Hp].
  vm_compute in Hp. discriminate Hp.
Qed.

(** ** The params store (C8) *)

Lemma setParams_invalid listener newParams st :
  bool_decide (typeof newParams ≠ TObject) || is_null newParams = true →
  setParams listener newParams st
  = (Ret (), with_console (console st ++ [Line Err "Invalid params object" []]) st).
Proof. intros H. unfold setParams. rewrite H. reflexivity. Qed.

Lemma setParams_object listener newParams st :
  typeof newParams = TObject →
  is_null newParams = false →
  let store := own_props newParams ∪ paramsStore st in
  setParams listener newParams st
  = dispatchEvent listener (VStr "paramsUpdated") (VObj store)
      (with_console (console st ++ [Line Info "Params updated:" [VObj store]])
         (with_paramsStore store st)).
Proof.
  intros Hobj Hnull store. unfold setParams.
  rewrite bool_decide_eq_false_2, Hnull by (rewrite Hobj; auto). reflexivity.
Qed.

Lemma paramsUpdated_slot st :
  get_slot (eventListeners st) "paramsUpdated"
  = match eventListeners st !! "paramsUpdated" with
    | Some l => Own l
    | None => Absent
    end.
Proof. unfold get_slot. destruct (_ !! _); reflexivity. Qed.

(** The merge of the spread [{...paramsStore, ...newParams}]. *)
Lemma merged_lookup (partial store : gmap string value) k :
  (partial ∪ store) !! k
  = match partial !! k with
    | Some v => Some v
    | None => store !! k
    end.
Proof.
  destruct (partial !! k) as [v|] eqn:Hk.
  - apply lookup_union_Some_l, Hk.
  - apply lookup_union_r, Hk.
Qed.




(** ** The router (C2) *)

(** What [receiveMessage] does once the message is printed and parsed. *)
Lemma receiveMessage_parsed parse listener response st res :
  fst (safeParseJSON parse response st) = Ret res →
  let st0 := snd (safeParseJSON parse response
                    (with_console (console st ++ [received response]) st)) in
  receiveMessage parse listener response st
  = try_catch
      (if negb (truthy res) then mret ()
       else if truthy (prop res "event") then
         dispatchEvent listener (prop res "event") (prop res "data")
       else if truthy (prop res "id") && bool_decide (typeof (prop res "success") = TBoolean) then
         if truthy (prop res "success") then
           handleSuccess (prop res "id") (prop res "data")
         else
           handleFailure (prop res "id") (or_else (prop res "error") unknown_error)
       else mret ())
      (λ e, logger_error "Error processing message:" [e]) st0.
Proof.
  intros Hres st0.
  destruct (safeParseJSON_state parse response
              (with_console (console st ++ [received response]) st))
    as (res' & lines & Hparse & _).
  assert (res' = res) as ->.
  { destruct (safeParseJSON_state parse response st) as (r & ls & Hp & _).
    rewrite Hp in Hres. simpl in Hres. injection Hres as <-.
    revert Hparse Hp. unfold safeParseJSON.
    destruct response; try (intros [= <-] [= <-]; reflexivity).
    destruct (parse s); intros [= <-] [= <-]; reflexivity. }
  unfold st0. rewrite Hparse. simpl.
  unfold receiveMessage, try_catch, mbind, M_bind at 1.
  unfold logger_log, console_write, modify. simpl.
  unfold received in Hparse. unfold mbind, M_bind. rewrite Hparse. reflexivity.
Qed.

(** C2, as the code has it. Of a message that parsed to a truthy value: if
    its [event] is truthy it goes to [dispatchEvent] and nowhere else, and
    the correlator's state is as before; otherwise, if its [id] is truthy and
    [success] is a boolean, it goes to [handleSuccess(id, data)] when
    [success] is [true] and to [handleFailure(id, error || {error: 'Unknown
    error'})] when it is [false]; otherwise it is dropped. Whatever the
    handler throws is caught and printed. *)
Theorem C2_router_classifies parse listener response st res :
  fst (safeParseJSON parse response st) = Ret res →
  truthy res = true →
  let st0 := snd (safeParseJSON parse response
                    (with_console (console st ++ [received response]) st)) in
  let handler := λ e, logger_error "Error processing message:" [e] in
  let event := prop res "event" in
  let id := prop res "id" in
  let success := prop res "success" in
  correlator st0 = correlator st
  ∧ invoked st0 = invoked st
  ∧ (truthy event = true →
       receiveMessage parse listener response st
       = try_catch (dispatchEvent listener event (prop res "data")) handler st0
       ∧ correlator (snd (receiveMessage parse listener response st)) = correlator st)
  ∧ (truthy event = false → truthy id = true → success = VBool true →
       receiveMessage parse listener response st
       = try_catch (handleSuccess id (prop res "data")) handler st0)
  ∧ (truthy event = false → truthy id = true → success = VBool false →
       receiveMessage parse listener response st
       = try_catch (handleFailure id (or_else (prop res "error") unknown_error)) handler st0)
  ∧ (truthy event = false → truthy id = false ∨ typeof success ≠ TBoolean →
       receiveMessage parse listener response st = (Ret (), st0)).
Proof.
  intros Hres Htruthy st0 handler event id success.
  pose proof (receiveMessage_parsed parse listener response st res Hres) as Hrun.
  simpl in Hrun. fold st0 in Hrun. rewrite Htruthy in Hrun. simpl in Hrun.
  fold event id success in Hrun.
  assert (correlator st0 = correlator st ∧ invoked st0 = invoked st) as [Hcorr Hinv].
  { unfold st0.
    destruct (safeParseJSON_state parse response
                (with_console (console st ++ [received response]) st))
      as (r & lines & -> & _).
    split; reflexivity. }
  split; [exact Hcorr|]. split; [exact Hinv|]. split; [|split; [|split]].
  - intros Hevent. rewrite Hevent in Hrun. split; [exact Hrun|].
    rewrite Hrun, <- Hcorr.
    apply (preserves_try_catch (λ s, correlator s = correlator st0)); [| |reflexivity].
    + apply dispatchEvent_preserves; intros; assumption.
    + intros e. apply logger_error_preserves; [intros; assumption|discriminate].
  - intros Hevent Hid Hsuccess. rewrite Hevent, Hid, Hsuccess in Hrun. exact Hrun.
  - intros Hevent Hid Hsuccess. rewrite Hevent, Hid, Hsuccess in Hrun. exact Hrun.
  - intros Hevent Hno. rewrite Hevent in Hrun. rewrite Hrun.
    destruct Hno as [Hid|Hty].
    + rewrite Hid. reflexivity.
    + rewrite (bool_decide_eq_false_2 _ Hty), andb_false_r. reflexivity.
Qed.

Lemma C2_round_trip_witness :
  promises (snd (receiveMessage Json.parse calm success_message one_pending))
  = [Fulfilled (VObj {[ "v" := VNum 1 ]})].
Proof.
  pose (res := VObj (<["id" := VStr "sa_0_1"]> (<["success" := VBool true]>
                      {[ "data" := VObj {[ "v" := VNum 1 ]} ]}))).
  destruct (C2_router_classifies Json.parse calm success_message one_pending res
              eq_refl eq_refl)
    as (_ & _ & _ & Hsuccess & _).
  rewrite (Hsuccess eq_refl eq_refl eq_refl). reflexivity.
Defined.

(** The claim's shapes are not the code's tests. A message with an [event]
    field that is the empty string, an id and [success: true] carries an
    [event] field, and yet it resolves the pending request and no event is
    dispatched. A failed response whose [error] is the empty string rejects
    with [{error: 'Unknown error'}], where [error ?? {error: 'Unknown
    error'}] is the empty string. *)
Lemma C2_falsy_fields_counterexample :
  (λ res, prop res "event") <$> Json.parse (to_string falsy_event_message) = Some (VStr EmptyString)
  ∧ promises one_pending = [Pending]
  ∧ promises (snd (receiveMessage Json.parse calm falsy_event_message one_pending))
    = [Fulfilled VUndefined]
  ∧ l_text <$> console (snd (receiveMessage Json.parse calm falsy_event_message one_pending))
    = (l_text <$> console one_pending)
        ++ ["Received from Flutter:"; "Success Response:"; "Request took 0ms"]
  ∧ (λ res, prop res "error") <$> Json.parse (to_string empty_error_message) = Some (VStr EmptyString)
  ∧ promises (snd (receiveMessage Json.parse calm empty_error_message one_pending))
    = [Rejected unknown_error]
  ∧ promises (snd (handleFailure (VStr "sa_0_1") (nullish_or (VStr EmptyString) unknown_error)
                     one_pending))
    = [Rejected (VStr EmptyString)]
  ∧ unknown_error ≠ VStr EmptyString.
Proof. repeat split. discriminate. Qed.

(** * Further properties *)

(** ** From call to settlement *)

Lemma prop_response rid success fields :
  let msg := response_message rid success fields in
  prop msg "event" = VUndefined
  ∧ prop msg "id" = VStr rid
  ∧ prop msg "success" = VBool success
  ∧ prop msg "data" = prop (VObj fields) "data"
  ∧ prop msg "error" = prop (VObj fields) "error".
Proof.
  unfold response_message, prop.
  rewrite !lookup_insert, !lookup_delete. repeat split.
Qed.

(** A response object for a generated id is routed to [handleSuccess] or
    to [handleFailure]. *)
Lemma receiveMessage_response parse listener now n success fields st :
  let rid := request_id now n in
  let msg := response_message rid success fields in
  let st0 := with_console (console st ++ [received msg]) st in
  receiveMessage parse listener msg st
  = try_catch
      (if success then handleSuccess (VStr rid) (prop (VObj fields) "data")
       else handleFailure (VStr rid) (or_else (prop (VObj fields) "error") unknown_error))
      (λ e, logger_error "Error processing message:" [e]) st0.
Proof.
  intros rid msg st0.
  destruct (prop_response rid success fields) as (Hev & Hid & Hsucc & Hdata & Herr).
  fold msg in Hev, Hid, Hsucc, Hdata, Herr.
  pose proof (receiveMessage_parsed parse listener msg st msg eq_refl) as Hrun.
  cbv zeta in Hrun.
  assert (truthy msg = true) as Hmsg by reflexivity.
  assert (truthy (VStr rid) = true) as Hrid by reflexivity.
  rewrite Hmsg, Hev, Hid, Hsucc, Hdata, Herr, Hrid in Hrun.
  rewrite Hrun. destruct success; reflexivity.
Qed.

(** A call with valid names on an accepting channel leaves the request
    pending: entry, timeout and promise. *)
Lemma call_accepted cn mn params st post :
  nonempty_string cn = true →
  nonempty_string mn = true →
  channel st = Channel post →
  post (payload_of (request_id (clock st) (requestIdCounter st)) cn mn
          (params_or_default params)) = None →
  let rid := request_id (clock st) (requestIdCounter st) in
  let st1 := snd (call cn mn params st) in
  callbackRegistry st1
  = <[rid := Entry (length (promises st)) (clock st) (nextTimer st)]> (callbackRegistry st)
  ∧ timers st1 = <[nextTimer st := Timer rid timeoutDuration]> (timers st)
  ∧ promises st1 = promises st ++ [Pending]
  ∧ requestIdCounter st1 = (requestIdCounter st + 1)%N
  ∧ nextTimer st1 = S (nextTimer st)
  ∧ invoked st1 = invoked st.
Proof.
  intros Hcn Hmn Hch Hpost rid st1.
  pose proof (call_channel cn mn params st post Hcn Hmn Hch) as Hcall.
  simpl in Hcall. rewrite Hpost in Hcall.
  unfold st1. rewrite Hcall. repeat split.
Qed.

(** X1. The round trip. After a call with valid names that the channel
    accepted, a response object from the host with the call's id settles the
    call's promise: with [success: true] it is fulfilled with the
    response's [data]; with [success: false] it is rejected with the
    response's [error], or with [{error: 'Unknown error'}] when that is
    falsy or missing. Either way the entry and the timeout of the call are
    gone. *)
Theorem call_then_response cn mn params st post parse listener success fields :
  nonempty_string cn = true →
  nonempty_string mn = true →
  channel st = Channel post →
  post (payload_of (request_id (clock st) (requestIdCounter st)) cn mn
          (params_or_default params)) = None →
  let rid := request_id (clock st) (requestIdCounter st) in
  let st1 := snd (call cn mn params st) in
  let st2 := snd (receiveMessage parse listener (response_message rid success fields) st1) in
  promises st1 = promises st ++ [Pending]
  ∧ promises st2
    = promises st ++
        [if success then Fulfilled (prop (VObj fields) "data")
         else Rejected (or_else (prop (VObj fields) "error") unknown_error)]
  ∧ callbackRegistry st2 = delete rid (callbackRegistry st)
  ∧ timers st2 = delete (nextTimer st) (timers st)
  ∧ invoked st2 = invoked st.
Proof.
  intros Hcn Hmn Hch Hpost rid st1 st2.
  destruct (call_accepted cn mn params st post Hcn Hmn Hch Hpost)
    as (Hreg & Htm & Hpr & _ & _ & Hinv).
  fold rid in Hreg, Htm. fold st1 in Hreg, Htm, Hpr, Hinv.
  split; [exact Hpr|].
  set (msg := response_message rid success fields).
  set (st0 := with_console (console st1 ++ [received msg]) st1).
  assert (callbackRegistry st0 !! to_string (VStr rid)
          = Some (Entry (length (promises st)) (clock st) (nextTimer st))) as Hentry.
  { simpl. rewrite Hreg. apply lookup_insert_eq. }
  pose proof (receiveMessage_response parse listener (clock st) (requestIdCounter st)
                success fields st1) as Hrun.
  cbv zeta in Hrun. fold rid in Hrun. fold msg in Hrun. fold st0 in Hrun.
  unfold st2. fold msg. rewrite Hrun. clear Hrun. unfold try_catch.
  destruct success.
  - rewrite (handleSuccess_own _ _ _ _ Hentry). simpl.
    rewrite Hpr, settle_in_last, Hreg, Htm, !delete_insert_eq, Hinv. repeat split.
  - rewrite (handleFailure_own _ _ _ _ Hentry). simpl.
    rewrite Hpr, settle_in_last, Hreg, Htm, !delete_insert_eq, Hinv. repeat split.
Qed.

Lemma call_then_response_witness :
  promises (snd (receiveMessage Json.parse calm
                   (response_message "sa_0_1" false {[ "error" := VStr "denied" ]})
                   one_pending))
  = [Rejected (VStr "denied")].
Proof.
  destruct (call_then_response (VStr "a") (VStr "b") (VObj ∅) (with_channel accepting initial)
              (λ _, None) Json.parse calm false {[ "error" := VStr "denied" ]}
              eq_refl eq_refl eq_refl eq_refl) as (_ & Hp & _).
  exact Hp.
Defined.

(** X2. The timeout. After a call with valid names that the channel
    accepted, the event loop running the timer the call scheduled rejects
    the call's promise with [{error: "Request Timeout"}] and removes the entry
    and the timer; a response for that id that arrives afterwards is
    printed and changes nothing else. *)
Theorem call_then_timeout cn mn params st post parse listener success fields :
  nonempty_string cn = true →
  nonempty_string mn = true →
  channel st = Channel post →
  post (payload_of (request_id (clock st) (requestIdCounter st)) cn mn
          (params_or_default params)) = None →
  let rid := request_id (clock st) (requestIdCounter st) in
  let st1 := snd (call cn mn params st) in
  let st2 := snd (fire (nextTimer st) st1) in
  let late := response_message rid success fields in
  fst (fire (nextTimer st) st1) = Ret ()
  ∧ promises st2 = promises st ++ [Rejected timeout_error]
  ∧ callbackRegistry st2 = delete rid (callbackRegistry st)
  ∧ timers st2 = delete (nextTimer st) (timers st)
  ∧ receiveMessage parse listener late st2
    = (Ret (), with_console (console st2 ++ [received late]) st2).
Proof.
  intros Hcn Hmn Hch Hpost rid st1 st2 late.
  destruct (call_accepted cn mn params st post Hcn Hmn Hch Hpost)
    as (Hreg & Htm & Hpr & _).
  fold rid in Hreg, Htm. fold st1 in Hreg, Htm, Hpr.
  assert (fire (nextTimer st) st1
          = handleFailure (VStr rid) timeout_error
              (with_timers (delete (nextTimer st) (timers st1)) st1)) as Hfire.
  { unfold fire, mbind, M_bind, gets, modify. rewrite Htm, lookup_insert_eq. simpl.
    rewrite <- Htm. apply timeout_callback_handleFailure. }
  rewrite (handleFailure_own _ _ _ (Entry (length (promises st)) (clock st) (nextTimer st)))
    in Hfire by (simpl; rewrite Hreg; apply lookup_insert_eq).
  simpl in Hfire.
  assert (promises st2 = promises st ++ [Rejected timeout_error]
          ∧ callbackRegistry st2 = delete rid (callbackRegistry st)
          ∧ timers st2 = delete (nextTimer st) (timers st)) as (Hp2 & Hr2 & Ht2).
  { unfold st2. rewrite Hfire. simpl.
    rewrite Hpr, settle_in_last, Hreg, Htm, !delete_insert_eq, delete_delete_eq.
    repeat split. }
  split; [rewrite Hfire; reflexivity|].
  split; [exact Hp2|]. split; [exact Hr2|]. split; [exact Ht2|].
  set (st0 := with_console (console st2 ++ [received late]) st2).
  pose proof (receiveMessage_response parse listener (clock st) (requestIdCounter st)
                success fields st2) as Hrun.
  cbv zeta in Hrun. fold rid in Hrun. fold late in Hrun. fold st0 in Hrun.
  rewrite Hrun. clear Hrun.
  assert (get_slot (callbackRegistry st0) (to_string (VStr rid)) = Absent) as Habs.
  { simpl. rewrite Hr2. apply get_slot_absent; [apply lookup_delete_eq|].
    apply request_id_not_inherited. }
  unfold try_catch.
  destruct success.
  - rewrite handleSuccess_absent by exact Habs. reflexivity.
  - rewrite handleFailure_absent by exact Habs. reflexivity.
Qed.

Lemma call_then_timeout_witness :
  promises (snd (fire 0 one_pending)) = [Rejected timeout_error].
Proof.
  destruct (call_then_timeout (VStr "a") (VStr "b") (VObj ∅) (with_channel accepting initial)
              (λ _, None) Json.parse calm true ∅ eq_refl eq_refl eq_refl eq_refl)
    as (_ & Hp & _).
  exact Hp.
Defined.

(** X3. [call] never throws: it returns the handle of a promise it has
    just made, after the promises that were there. That promise is left
    pending exactly when both names are non-empty strings and the channel is
    there and its [postMessage] returned; in every other case it is already
    rejected. *)
Theorem call_returns_promise cn mn params st :
  let payload := payload_of (request_id (clock st) (requestIdCounter st)) cn mn
                   (params_or_default params) in
  let accepted :=
    nonempty_string cn && nonempty_string mn
    && match channel st with
       | Channel post => bool_decide (post payload = None)
       | NoChannel => false
       end in
  fst (call cn mn params st) = Ret (length (promises st))
  ∧ ∃ o, promises (snd (call cn mn params st)) = promises st ++ [o]
         ∧ if accepted then o = Pending else ∃ err, o = Rejected (Error err).
Proof.
  intros payload accepted. unfold accepted.
  destruct (nonempty_string cn) eqn:Hcn;
    [|rewrite call_invalid_className by assumption; simpl; eauto].
  destruct (nonempty_string mn) eqn:Hmn;
    [|rewrite call_invalid_methodName by assumption; simpl; eauto].
  destruct (channel st) as [|post] eqn:Hch.
  - rewrite call_no_channel by assumption. simpl. eauto.
  - rewrite (call_channel _ _ _ _ post) by assumption. simpl. fold payload.
    destruct (post payload) as [msg|]; simpl; eauto.
Qed.

(** ** Pending requests, timeouts and promises *)

Lemma handleSuccess_settled rid resp st e :
  callbackRegistry st !! to_string rid = Some e →
  ∃ lines, handleSuccess rid resp st
           = (Ret (), settled_state (to_string rid) e (Fulfilled resp) lines st).
Proof. intros H. eexists. apply handleSuccess_own, H. Qed.

Lemma handleFailure_settled rid err st e :
  callbackRegistry st !! to_string rid = Some e →
  ∃ lines, handleFailure rid err st
           = (Ret (), settled_state (to_string rid) e (Rejected err) lines st).
Proof. intros H. eexists. apply handleFailure_own, H. Qed.

Lemma same_pending_console st lines :
  same_pending st (with_console (console st ++ lines) st).
Proof. repeat split. Qed.

(** The router keeps whatever the console, the listeners' record and the
    two settling functions keep. *)
Lemma receiveMessage_preserves_settling (P : state → Prop) parse listener response :
  (∀ st lv text args, text ≠ "Sending to Flutter:" →
     P st → P (with_console (console st ++ [Line lv text args]) st)) →
  (∀ st x, P st → P (with_invoked x st)) →
  (∀ rid resp, preserves P (handleSuccess rid resp)) →
  (∀ rid err, preserves P (handleFailure rid err)) →
  preserves P (receiveMessage parse listener response).
Proof.
  intros Hconsole Hinvoked Hsuccess Hfailure.
  unfold receiveMessage. apply preserves_try_catch.
  - apply preserves_bind; [apply logger_log_preserves; [exact Hconsole|discriminate]|intros ?].
    apply preserves_bind; [apply safeParseJSON_preserves, Hconsole|intros res].
    destruct (negb (truthy res)); [apply preserves_ret|].
    destruct (truthy (prop res "event"));
      [apply dispatchEvent_preserves; [exact Hconsole|exact Hinvoked]|].
    destruct (truthy (prop res "id") && _); [|apply preserves_ret].
    destruct (truthy (prop res "success")); [apply Hsuccess|apply Hfailure].
  - intros e. apply logger_error_preserves; [exact Hconsole|discriminate].
Qed.

Lemma same_pending_preserved {A} (m : M A) st :
  (∀ r t p c n, preserves (λ s, callbackRegistry s = r ∧ timers s = t ∧ promises s = p
                                ∧ requestIdCounter s = c ∧ nextTimer s = n) m) →
  same_pending st (snd (m st)).
Proof. intros H. apply (H _ _ _ _ _ st). repeat split. Qed.

Ltac fixed_pending :=
  try (intros ? ? ? ? ? (<- & <- & <- & <- & <-); repeat split);
  try (intros ? ? (<- & <- & <- & <- & <-); repeat split).

Lemma addListener_same_pending name cb st : same_pending st (snd (addListener name cb st)).
Proof.
  destruct (nonempty_string name) eqn:Hname;
    [|rewrite addListener_invalid_name by assumption; repeat split].
  destruct cb as [f|v];
    [|rewrite addListener_not_function by assumption; repeat split].
  destruct (get_slot (eventListeners st) (to_string name)) as [l| |] eqn:Hslot.
  - apply get_slot_own_inv in Hslot.
    rewrite (addListener_appends _ _ _ l) by assumption. repeat split.
  - rewrite addListener_inherited by assumption. repeat split.
  - rewrite addListener_first by assumption. repeat split.
Qed.

Lemma removeListener_same_pending name cb st :
  same_pending st (snd (removeListener name cb st)).
Proof.
  destruct (get_slot (eventListeners st) (to_string name)) as [l| |] eqn:Hslot.
  - apply get_slot_own_inv in Hslot.
    destruct (removeListener_own name cb st l Hslot) as (_ & _ & lines & -> & _).
    repeat split.
  - rewrite removeListener_inherited by assumption. repeat split.
  - rewrite removeListener_absent by assumption. repeat split.
Qed.

Lemma same_pending_inv st st' : same_pending st st' → pending_inv st → pending_inv st'.
Proof.
  unfold pending_inv. intros (-> & -> & -> & -> & ->). auto.
Qed.

(** The id the next call draws has no entry, and the timer id it is given
    is not scheduled. *)
Lemma pending_inv_fresh st :
  pending_inv st →
  callbackRegistry st !! request_id (clock st) (requestIdCounter st) = None
  ∧ timers st !! nextTimer st = None.
Proof.
  intros (Hentry & Htimer & _ & _). split.
  - destruct (callbackRegistry st !! _) as [e|] eqn:He; [|reflexivity].
    destruct (Hentry _ _ He) as (_ & _ & now & n & Heq & Hlt).
    apply request_id_inj in Heq as [_ Heq]. lia.
  - destruct (timers st !! nextTimer st) as [tm|] eqn:Ht; [|reflexivity].
    destruct (Htimer _ _ Ht) as (_ & e & He & Hid).
    destruct (Hentry _ _ He) as (Hlt & _). lia.
Qed.

Lemma lookup_snoc_pending (l : list pstate) o p :
  (l ++ [o]) !! p = Some Pending → l !! p = Some Pending ∨ (p = length l ∧ o = Pending).
Proof.
  intros Hp. apply lookup_app_Some in Hp as [Hp|[Hge Hp]]; [left; exact Hp|].
  right. destruct (p - length l) as [|k] eqn:Hk.
  - simpl in Hp. injection Hp as ->. split; [lia|reflexivity].
  - simpl in Hp. rewrite lookup_nil in Hp. discriminate Hp.
Qed.

(** A call turned away by validation appends a rejected promise. *)
Lemma pending_inv_turned_away st err :
  pending_inv st → pending_inv (with_promises (promises st ++ [Rejected err]) st).
Proof.
  intros (Hentry & Htimer & Hpromise & Hshare).
  split; [|split; [|split]]; simpl.
  - intros rid e He. destruct (Hentry _ _ He) as (Ht & Hp & Hgen).
    split; [exact Ht|]. split; [rewrite length_app; lia|exact Hgen].
  - exact Htimer.
  - intros p Hp. apply lookup_snoc_pending in Hp as [Hp|[_ Hp]]; [|discriminate Hp].
    apply Hpromise, Hp.
  - exact Hshare.
Qed.

(** A call with valid names, however it ended. *)
Lemma pending_inv_called st (o : pstate) (kept timed : bool) lines posts :
  pending_inv st →
  (o = Pending → timed = true) →
  (timed = true → kept = true) →
  let rid := request_id (clock st) (requestIdCounter st) in
  pending_inv
    (with_posted posts
       (with_console (console st ++ lines)
          (with_callbackRegistry
             (if kept
              then <[rid := Entry (length (promises st)) (clock st) (nextTimer st)]>
                     (callbackRegistry st)
              else delete rid (callbackRegistry st))
             (with_timers
                (if timed
                 then <[nextTimer st := Timer rid timeoutDuration]> (timers st)
                 else delete (nextTimer st) (timers st))
                (with_nextTimer (S (nextTimer st))
                   (with_requestIdCounter (requestIdCounter st + 1)%N
                      (with_promises (promises st ++ [o]) st))))))).
Proof.
  intros Hinv Hpending Htimed rid.
  destruct (pending_inv_fresh st Hinv) as (Hfresh & Hfree).
  destruct Hinv as (Hentry & Htimer & Hpromise & Hshare).
  fold rid in Hfresh.
  rewrite (delete_id _ _ Hfresh), (delete_id _ _ Hfree).
  assert (∀ k e, callbackRegistry st !! k = Some e → k ≠ rid) as Hold
    by (intros k e He ->; rewrite Hfresh in He; discriminate He).
  assert (∀ k e,
            (if kept
             then <[rid := Entry (length (promises st)) (clock st) (nextTimer st)]>
                    (callbackRegistry st)
             else callbackRegistry st) !! k = Some e →
            (k = rid ∧ e = Entry (length (promises st)) (clock st) (nextTimer st))
            ∨ (k ≠ rid ∧ callbackRegistry st !! k = Some e)) as Hcases.
  { intros k e. destruct kept.
    - rewrite lookup_insert. case_decide as Hk.
      + intros [= <-]. left. split; [symmetry; exact Hk|reflexivity].
      + intros He. right. split; [congruence|exact He].
    - intros He. right. split; [eapply Hold, He|exact He]. }
  assert (∀ k e, callbackRegistry st !! k = Some e →
            (if kept
             then <[rid := Entry (length (promises st)) (clock st) (nextTimer st)]>
                    (callbackRegistry st)
             else callbackRegistry st) !! k = Some e) as Hkeep.
  { intros k e He. destruct kept; [|exact He].
    rewrite lookup_insert_ne; [exact He|]. intros <-. exact (Hold _ _ He eq_refl). }
  assert (∀ t tm, timers st !! t = Some tm →
            (if timed
             then <[nextTimer st := Timer rid timeoutDuration]> (timers st)
             else timers st) !! t = Some tm) as Hkeept.
  { intros t tm Ht. destruct timed; [|exact Ht].
    rewrite lookup_insert_ne; [exact Ht|]. intros <-. rewrite Hfree in Ht. discriminate Ht. }
  split; [|split; [|split]]; simpl.
  - intros k e He. apply Hcases in He as [[-> ->]|[_ He]]; simpl.
    + split; [lia|]. split; [rewrite length_app; simpl; lia|].
      eexists _, _. split; [reflexivity|lia].
    + destruct (Hentry _ _ He) as (Ht & Hp & now & n & Heq & Hlt).
      split; [lia|]. split; [rewrite length_app; lia|].
      exists now, n. split; [exact Heq|lia].
  - intros t tm Ht.
    assert ((t = nextTimer st ∧ tm = Timer rid timeoutDuration ∧ timed = true)
            ∨ timers st !! t = Some tm) as [(-> & -> & Hti)|Hold'].
    { destruct timed; [|right; exact Ht].
      rewrite lookup_insert in Ht. case_decide as Hk.
      - injection Ht as <-. left. split; [symmetry; exact Hk|]. split; reflexivity.
      - right. exact Ht. }
    + split; [reflexivity|]. simpl. rewrite (Htimed Hti).
      eexists. rewrite lookup_insert_eq. split; reflexivity.
    + destruct (Htimer _ _ Hold') as (Hd & e & He & Hid).
      split; [exact Hd|]. exists e. split; [apply Hkeep, He|exact Hid].
  - intros p Hp. apply lookup_snoc_pending in Hp as [Hp|[-> Ho]].
    + destruct (Hpromise _ Hp) as (k & e & He & Hpe & Ht).
      exists k, e. split; [apply Hkeep, He|]. split; [exact Hpe|apply Hkeept, Ht].
    + rewrite (Hpending Ho), (Htimed (Hpending Ho)).
      exists rid. eexists. rewrite lookup_insert_eq. split; [reflexivity|].
      split; [reflexivity|]. simpl. apply lookup_insert_eq.
  - intros k1 k2 e1 e2 He1 He2 Heq.
    apply Hcases in He1 as [[-> ->]|[Hk1 He1]];
      apply Hcases in He2 as [[-> ->]|[Hk2 He2]]; [reflexivity| | |].
    + destruct (Hentry _ _ He2) as (Ht & Hp & _). simpl in Heq. lia.
    + destruct (Hentry _ _ He1) as (Ht & Hp & _). simpl in Heq. lia.
    + exact (Hshare _ _ _ _ He1 He2 Heq).
Qed.

(** Settling an entry. *)
Lemma pending_inv_settled st k e o lines :
  pending_inv st →
  callbackRegistry st !! k = Some e →
  o ≠ Pending →
  pending_inv (settled_state k e o lines st).
Proof.
  intros (Hentry & Htimer & Hpromise & Hshare) He Ho.
  assert (∀ p, settle_in (e_promise e) o (promises st) !! p = Some Pending →
            p ≠ e_promise e ∧ promises st !! p = Some Pending) as Hset.
  { intros p. unfold settle_in.
    destruct (promises st !! e_promise e) as [[]|] eqn:Hpe;
      try (intros Hp; split; [intros ->; congruence|exact Hp]).
    destruct (decide (p = e_promise e)) as [->|Hne].
    - rewrite list_lookup_insert_eq by (eapply lookup_lt_Some, Hpe). congruence.
    - rewrite list_lookup_insert_ne by congruence. auto. }
  assert (length (settle_in (e_promise e) o (promises st)) = length (promises st)) as Hlen.
  { unfold settle_in. destruct (promises st !! e_promise e) as [[]|]; try reflexivity.
    apply length_insert. }
  unfold settled_state.
  split; [|split; [|split]]; simpl.
  - intros k' e'. rewrite lookup_delete. case_decide as Hk; [discriminate|].
    intros He'. rewrite Hlen. apply (Hentry _ _ He').
  - intros t tm. rewrite lookup_delete. case_decide as Ht; [discriminate|].
    intros Htm. destruct (Htimer _ _ Htm) as (Hd & e' & He' & Hid).
    split; [exact Hd|]. exists e'. split; [|exact Hid].
    rewrite lookup_delete_ne; [exact He'|].
    intros Heq. rewrite <- Heq, He in He'. injection He' as <-. congruence.
  - intros p Hp. apply Hset in Hp as [Hne Hp].
    destruct (Hpromise _ Hp) as (k' & e' & He' & Hpe & Ht).
    assert (k ≠ k') as Hk
      by (intros <-; rewrite He in He'; injection He' as <-; congruence).
    exists k', e'. split; [rewrite lookup_delete_ne by exact Hk; exact He'|].
    split; [exact Hpe|].
    rewrite lookup_delete_ne; [exact Ht|].
    intros Heq. apply Hk. apply (Hshare _ _ _ _ He He'). left. exact Heq.
  - intros k1 k2 e1 e2. rewrite !lookup_delete.
    case_decide; [discriminate|]. case_decide; [discriminate|]. apply Hshare.
Qed.

Lemma handleSuccess_pending_inv rid resp :
  preserves pending_inv (handleSuccess rid resp).
Proof.
  intros st Hinv.
  destruct (get_slot (callbackRegistry st) (to_string rid)) as [e| |] eqn:Hslot.
  - apply get_slot_own_inv in Hslot.
    destruct (handleSuccess_settled rid resp st e Hslot) as (lines & ->).
    apply pending_inv_settled; [exact Hinv|exact Hslot|discriminate].
  - rewrite handleSuccess_inherited by exact Hslot.
    eapply same_pending_inv; [apply same_pending_console|exact Hinv].
  - rewrite handleSuccess_absent by exact Hslot. exact Hinv.
Qed.

Lemma handleFailure_pending_inv rid err :
  preserves pending_inv (handleFailure rid err).
Proof.
  intros st Hinv.
  destruct (get_slot (callbackRegistry st) (to_string rid)) as [e| |] eqn:Hslot.
  - apply get_slot_own_inv in Hslot.
    destruct (handleFailure_settled rid err st e Hslot) as (lines & ->).
    apply pending_inv_settled; [exact Hinv|exact Hslot|discriminate].
  - rewrite handleFailure_inherited by exact Hslot.
    eapply same_pending_inv; [apply same_pending_console|exact Hinv].
  - rewrite handleFailure_absent by exact Hslot. exact Hinv.
Qed.

(** A timer that fires finds its entry and settles it. *)
Lemma fire_settles t tm st :
  pending_inv st →
  timers st !! t = Some tm →
  ∃ e lines,
    callbackRegistry st !! t_request tm = Some e ∧ e_timeoutId e = t
    ∧ fire t st = (Ret (), settled_state (t_request tm) e (Rejected timeout_error) lines st).
Proof.
  intros Hinv Ht. unfold fire, mbind, M_bind, gets, modify. rewrite Ht. simpl.
  destruct (proj1 (proj2 Hinv) _ _ Ht) as (_ & e & He & Hid).
  rewrite timeout_callback_handleFailure.
  destruct (handleFailure_settled (VStr (t_request tm)) timeout_error
              (with_timers (delete t (timers st)) st) e He) as (lines & ->).
  exists e, lines. split; [exact He|]. split; [exact Hid|].
  unfold settled_state. simpl. rewrite Hid, delete_delete_eq. reflexivity.
Qed.

Lemma fire_pending_inv t : preserves pending_inv (fire t).
Proof.
  intros st Hinv.
  destruct (timers st !! t) as [tm|] eqn:Ht.
  - destruct (fire_settles t tm st Hinv Ht) as (e & lines & He & _ & ->).
    apply pending_inv_settled; [exact Hinv|exact He|discriminate].
  - unfold fire, mbind, M_bind, gets. rewrite Ht. exact Hinv.
Qed.

Lemma call_in_pending_inv serialises raised cn mn params :
  preserves pending_inv (call_in serialises raised cn mn params).
Proof.
  intros st Hinv.
  destruct (nonempty_string cn) eqn:Hcn.
  2: { rewrite call_in_invalid_className by assumption.
       apply pending_inv_turned_away, Hinv. }
  destruct (nonempty_string mn) eqn:Hmn.
  2: { rewrite call_in_invalid_methodName by assumption.
       apply pending_inv_turned_away, Hinv. }
  destruct (call_in_valid serialises raised cn mn params st Hcn Hmn)
    as (o & kept & timed & lines & -> & Hpending & Htimed).
  apply pending_inv_called; assumption.
Qed.

Lemma step_pending_inv parse listener st o :
  pending_inv st → pending_inv (step parse listener st o).
Proof.
  intros Hinv. destruct o; simpl; try exact Hinv.
  - rewrite call_call_in. apply call_in_pending_inv, Hinv.
  - apply handleSuccess_pending_inv, Hinv.
  - apply handleFailure_pending_inv, Hinv.
  - eapply same_pending_inv; [apply addListener_same_pending|exact Hinv].
  - eapply same_pending_inv; [apply removeListener_same_pending|exact Hinv].
  - eapply same_pending_inv; [|exact Hinv].
    apply same_pending_preserved. intros. apply dispatchEvent_preserves; fixed_pending.
  - eapply same_pending_inv; [|exact Hinv].
    apply same_pending_preserved. intros. apply setParams_preserves; fixed_pending.
  - eapply same_pending_inv; [|exact Hinv].
    apply same_pending_preserved. intros. apply getParams_preserves.
  - apply receiveMessage_preserves_settling; try exact Hinv.
    + intros s lv text args _ Hs.
      eapply same_pending_inv; [apply (same_pending_console s [_])|exact Hs].
    + intros s x Hs. eapply same_pending_inv; [|exact Hs]. repeat split.
    + apply handleSuccess_pending_inv.
    + apply handleFailure_pending_inv.
  - apply fire_pending_inv, Hinv.
Qed.

Lemma initial_pending_inv : pending_inv initial.
Proof.
  split; [|split; [|split]]; simpl.
  - intros rid e He. rewrite lookup_empty in He. discriminate He.
  - intros t tm Ht. rewrite lookup_empty in Ht. discriminate Ht.
  - intros p Hp. rewrite lookup_nil in Hp. discriminate Hp.
  - intros k1 k2 e1 e2 He. rewrite lookup_empty in He. discriminate He.
Qed.

Lemma play_pending_inv parse listener l : ∀ st,
  pending_inv st → pending_inv (play parse listener st l).
Proof.
  induction l as [|a l IH]; intros st Hinv; [exact Hinv|].
  simpl. apply IH. destruct a as [o|s r c m p]; simpl.
  - apply step_pending_inv, Hinv.
  - apply call_in_pending_inv, Hinv.
Qed.

(** X4. In every state the bridge can reach, whatever happened to the
    calls made on the way, a promise that is pending can still be settled:
    it belongs to an entry of the registry whose timeout is scheduled (for
    [timeoutDuration], carrying the entry's id), and running that timeout
    rejects it with the timeout error. Every scheduled timeout belongs to an
    entry, and no two entries share a timeout or a promise. *)
Theorem pending_promise_has_its_timeout parse listener tr :
  let st := play parse listener initial tr in
  (∀ p, promises st !! p = Some Pending →
     ∃ rid e, callbackRegistry st !! rid = Some e ∧ e_promise e = p
              ∧ timers st !! e_timeoutId e = Some (Timer rid timeoutDuration)
              ∧ promises (snd (fire (e_timeoutId e) st)) !! p
                = Some (Rejected timeout_error))
  ∧ (∀ t tm, timers st !! t = Some tm →
       ∃ e, callbackRegistry st !! t_request tm = Some e ∧ e_timeoutId e = t)
  ∧ (∀ rid1 rid2 e1 e2,
       callbackRegistry st !! rid1 = Some e1 →
       callbackRegistry st !! rid2 = Some e2 →
       e_timeoutId e1 = e_timeoutId e2 ∨ e_promise e1 = e_promise e2 →
       rid1 = rid2).
Proof.
  intros st.
  assert (pending_inv st) as Hinv by apply play_pending_inv, initial_pending_inv.
  pose proof Hinv as (Hentry & Htimer & Hpromise & Hshare).
  split; [|split].
  - intros p Hp. destruct (Hpromise _ Hp) as (rid & e & He & Hpe & Ht).
    exists rid, e. split; [exact He|]. split; [exact Hpe|]. split; [exact Ht|].
    destruct (fire_settles _ _ st Hinv Ht) as (e' & lines & He' & _ & ->).
    simpl in He'. rewrite He in He'. injection He' as <-.
    simpl. unfold settle_in. rewrite Hpe, Hp.
    apply list_lookup_insert_eq. eapply lookup_lt_Some, Hp.
  - intros t tm Ht. destruct (Htimer _ _ Ht) as [_ Hex]. exact Hex.
  - exact Hshare.
Qed.

Lemma pending_promise_has_its_timeout_witness :
  let st := play Json.parse calm initial
              [Op (OChannel accepting);
               CallIn (λ _, true) (λ _, VNull) (VStr "a") (VStr "b") (VObj ∅);
               Op (OChannel refusing);
               CallIn (λ _, true) (λ _, VNull) (VStr "a") (VStr "b") (VObj ∅)] in
  promises st
  = [Pending; Rejected (TypeError "Cannot read properties of null (reading 'message')")]
  ∧ dom (callbackRegistry st) = {[ "sa_0_1"; "sa_0_2" ]}
  ∧ ∃ rid e, callbackRegistry st !! rid = Some e ∧ e_promise e = 0
             ∧ timers st !! e_timeoutId e = Some (Timer rid timeoutDuration)
             ∧ promises (snd (fire (e_timeoutId e) st)) !! 0 = Some (Rejected timeout_error).
Proof.
  intros st.
  destruct (pending_promise_has_its_timeout Json.parse calm
              [Op (OChannel accepting);
               CallIn (λ _, true) (λ _, VNull) (VStr "a") (VStr "b") (VObj ∅);
               Op (OChannel refusing);
               CallIn (λ _, true) (λ _, VNull) (VStr "a") (VStr "b") (VObj ∅)])
    as (Hpending & _).
  split; [reflexivity|]. split; [reflexivity|].
  exact (Hpending 0 eq_refl).
Defined.

(** ** A settled promise is final *)

Lemma settle_in_keeps l p v q o :
  l !! p = Some v → v ≠ Pending → settle_in q o l !! p = Some v.
Proof.
  intros Hp Hv. unfold settle_in.
  destruct (l !! q) as [[]|] eqn:Hq; try exact Hp.
  rewrite list_lookup_insert_ne; [exact Hp|]. intros ->. congruence.
Qed.

Lemma call_promises cn mn params st :
  ∃ o, promises (snd (call cn mn params st)) = promises st ++ [o].
Proof.
  destruct (nonempty_string cn) eqn:Hcn;
    [|rewrite call_invalid_className by assumption; simpl; eauto].
  destruct (nonempty_string mn) eqn:Hmn;
    [|rewrite call_invalid_methodName by assumption; simpl; eauto].
  destruct (channel st) as [|post] eqn:Hch.
  - rewrite call_no_channel by assumption. simpl. eauto.
  - rewrite (call_channel _ _ _ _ post) by assumption. simpl.
    destruct (post _); simpl; eauto.
Qed.

Lemma handleSuccess_keeps_settled p v rid resp :
  v ≠ Pending → preserves (λ s, promises s !! p = Some v) (handleSuccess rid resp).
Proof.
  intros Hv st Hp.
  destruct (get_slot (callbackRegistry st) (to_string rid)) as [e| |] eqn:Hslot.
  - apply get_slot_own_inv in Hslot.
    destruct (handleSuccess_settled rid resp st e Hslot) as (lines & ->).
    simpl. apply settle_in_keeps; assumption.
  - rewrite handleSuccess_inherited by exact Hslot. exact Hp.
  - rewrite handleSuccess_absent by exact Hslot. exact Hp.
Qed.

Lemma handleFailure_keeps_settled p v rid err :
  v ≠ Pending → preserves (λ s, promises s !! p = Some v) (handleFailure rid err).
Proof.
  intros Hv st Hp.
  destruct (get_slot (callbackRegistry st) (to_string rid)) as [e| |] eqn:Hslot.
  - apply get_slot_own_inv in Hslot.
    destruct (handleFailure_settled rid err st e Hslot) as (lines & ->).
    simpl. apply settle_in_keeps; assumption.
  - rewrite handleFailure_inherited by exact Hslot. exact Hp.
  - rewrite handleFailure_absent by exact Hslot. exact Hp.
Qed.

Lemma step_keeps_settled parse listener st o p v :
  v ≠ Pending →
  promises st !! p = Some v →
  promises (step parse listener st o) !! p = Some v.
Proof.
  intros Hv Hp. destruct o; simpl; try exact Hp.
  - destruct (call_promises className methodName params st) as [o ->].
    apply lookup_app_l_Some, Hp.
  - apply (handleSuccess_keeps_settled p v); assumption.
  - apply (handleFailure_keeps_settled p v); assumption.
  - destruct (addListener_same_pending eventName cb st) as (_ & _ & -> & _). exact Hp.
  - destruct (removeListener_same_pending eventName cb st) as (_ & _ & -> & _). exact Hp.
  - apply (dispatchEvent_preserves (λ s, promises s !! p = Some v));
      [intros; assumption..|exact Hp].
  - apply (setParams_preserves (λ s, promises s !! p = Some v));
      [intros; assumption..|exact Hp].
  - apply (getParams_preserves (λ s, promises s !! p = Some v)). exact Hp.
  - apply (receiveMessage_preserves_settling (λ s, promises s !! p = Some v));
      [intros; assumption..| | |exact Hp].
    + intros. apply handleSuccess_keeps_settled, Hv.
    + intros. apply handleFailure_keeps_settled, Hv.
  - unfold fire, mbind, M_bind, gets, modify.
    destruct (timers st !! t) as [tm|]; [|exact Hp]. simpl.
    rewrite timeout_callback_handleFailure.
    apply (handleFailure_keeps_settled p v); assumption.
Qed.

(** X5. A promise that has been fulfilled or rejected stays as it is
    through every later operation: a second response, a late timeout, a
    direct [handleSuccess] or [handleFailure], anything. And promises are
    only ever added. *)
Theorem settled_promise_is_final parse listener tr st p v :
  promises st !! p = Some v →
  v ≠ Pending →
  promises (run parse listener st tr) !! p = Some v.
Proof.
  intros Hp Hv. revert st Hp.
  induction tr as [|o tr IH]; intros st Hp; [exact Hp|].
  simpl. apply IH, step_keeps_settled; assumption.
Qed.

Lemma settled_promise_is_final_witness :
  promises (run Json.parse calm (snd (fire 0 one_pending))
              [OReceiveMessage success_message; OHandleSuccess (VStr "sa_0_1") VNull]) !! 0
  = Some (Rejected timeout_error).
Proof.
  apply (settled_promise_is_final Json.parse calm _ (snd (fire 0 one_pending)) 0
           (Rejected timeout_error)); [reflexivity|discriminate].
Defined.

(** ** Subscribing, unsubscribing, dispatching *)

Lemma filter_other_callbacks (cb : callback) (l : list nat) :
  (∀ g, g ∈ l → cb ≠ Fn g) → filter (λ g, cb ≠ Fn g) l = l.
Proof.
  induction l as [|g l IH]; intros Hall; [reflexivity|].
  rewrite filter_cons_True by (apply Hall; left).
  rewrite IH; [reflexivity|]. intros g' Hg'. apply Hall. right. exact Hg'.
Qed.

Lemma with_eventListeners_id st : with_eventListeners (eventListeners st) st = st.
Proof. destruct st; reflexivity. Qed.

Lemma initial_listeners_inv : listeners_inv initial.
Proof. intros k l Hl. simpl in Hl. rewrite lookup_empty in Hl. discriminate Hl. Qed.

(** The list a name has after [addListener] registered [f] for it. *)
Lemma addListener_registers name f st :
  nonempty_string name = true →
  to_string name ∉ object_prototype →
  let l := default [] (eventListeners st !! to_string name) in
  addListener name (Fn f) st
  = (Ret (Some (name, Fn f)),
     with_console (console st ++ [Line Info ("Added listener for event: " +:+ to_string name) []])
       (with_eventListeners (<[to_string name := l ++ [f]]> (eventListeners st)) st)).
Proof.
  intros Hname Hk l. unfold l.
  destruct (eventListeners st !! to_string name) as [l0|] eqn:Hl.
  - apply addListener_appends; assumption.
  - apply addListener_first; [assumption|]. apply get_slot_absent; assumption.
Qed.

(** X9. The function [addListener] returns removes the listener again,
    and with it every earlier registration of the same function for that
    name: [removeListener] filters by identity. When the function was not
    registered for the name before, calling the handle puts the subscriber
    table back as it was. *)
Theorem unsubscribe_removes_every_registration name f st :
  nonempty_string name = true →
  to_string name ∉ object_prototype →
  listeners_inv st →
  let l := default [] (eventListeners st !! to_string name) in
  let l' := filter (λ g, Fn f ≠ Fn g) l in
  ∃ st1,
    addListener name (Fn f) st = (Ret (Some (name, Fn f)), st1)
    ∧ eventListeners st1 = <[to_string name := l ++ [f]]> (eventListeners st)
    ∧ fst (unsubscribe (name, Fn f) st1) = Ret ()
    ∧ eventListeners (snd (unsubscribe (name, Fn f) st1))
      = (if bool_decide (l' = [])
         then delete (to_string name) (eventListeners st)
         else <[to_string name := l']> (eventListeners st))
    ∧ (f ∉ l → eventListeners (snd (unsubscribe (name, Fn f) st1)) = eventListeners st).
Proof.
  intros Hname Hk Hinv l l'.
  pose proof (addListener_registers name f st Hname Hk) as Hadd. cbv zeta in Hadd.
  fold l in Hadd. eexists. split; [exact Hadd|]. split; [reflexivity|].
  match type of Hadd with _ = (_, ?s) => set (st1 := s) end.
  assert (eventListeners st1 !! to_string name = Some (l ++ [f])) as Hl1
    by (simpl; apply lookup_insert_eq).
  destruct (removeListener_own name (Fn f) st1 (l ++ [f]) Hl1) as (Hret & Htable & _).
  assert (filter (λ g, Fn f ≠ Fn g) (l ++ [f]) = l') as Hfilter.
  { rewrite filter_app. unfold l'.
    rewrite (filter_cons_False _ f) by (intros H; apply H; reflexivity).
    rewrite filter_nil. apply app_nil_r. }
  rewrite Hfilter in Htable.
  assert (eventListeners (snd (unsubscribe (name, Fn f) st1))
          = (if bool_decide (l' = [])
             then delete (to_string name) (eventListeners st)
             else <[to_string name := l']> (eventListeners st))) as Hresult.
  { unfold unsubscribe. simpl fst. simpl snd at 2. rewrite Htable. simpl.
    destruct l' as [|g l'']; simpl.
    - apply delete_insert_eq.
    - apply insert_insert_eq. }
  split; [exact Hret|]. split; [exact Hresult|].
  intros Hf. rewrite Hresult.
  assert (l' = l) as ->.
  { apply filter_other_callbacks. intros g Hg [= ->]. contradiction. }
  unfold l. destruct (eventListeners st !! to_string name) as [l0|] eqn:Hl0; simpl.
  - rewrite bool_decide_eq_false_2 by (eapply Hinv, Hl0). apply insert_id, Hl0.
  - apply delete_id, Hl0.
Qed.

Lemma unsubscribe_witness :
  eventListeners
    (snd (unsubscribe (VStr "e", Fn 2)
            (snd (addListener (VStr "e") (Fn 2) (snd (addListener (VStr "e") (Fn 1) initial))))))
  = {[ "e" := [1] ]}.
Proof.
  assert ("e" ∉ object_prototype) as Hk
    by (apply (bool_decide_unpack _); reflexivity).
  assert (listeners_inv (snd (addListener (VStr "e") (Fn 1) initial))) as Hinv
    by apply addListener_listeners_inv, initial_listeners_inv.
  destruct (unsubscribe_removes_every_registration (VStr "e") 2
              (snd (addListener (VStr "e") (Fn 1) initial)) eq_refl Hk Hinv)
    as (st1 & Hadd & _ & _ & _ & Hback).
  assert (st1 = snd (addListener (VStr "e") (Fn 2)
                       (snd (addListener (VStr "e") (Fn 1) initial)))) as ->
    by (rewrite Hadd; reflexivity).
  rewrite Hback; [reflexivity|].
  apply (bool_decide_unpack _). reflexivity.
Defined.

(** X10. A listener that has just been added is invoked last: dispatching
    the event right after [addListener] invokes the listeners that were
    there, in their order, and then the new one, each with the data; a
    function registered twice is invoked twice. *)
Theorem added_listener_is_invoked_last listener name f data st :
  nonempty_string name = true →
  to_string name ∉ object_prototype →
  let l := default [] (eventListeners st !! to_string name) in
  let st1 := snd (addListener name (Fn f) st) in
  fst (dispatchEvent listener name data st1) = Ret ()
  ∧ invoked (snd (dispatchEvent listener name data st1))
    = invoked st ++ map (λ g, (g, data)) l ++ [(f, data)].
Proof.
  intros Hname Hk l st1.
  pose proof (addListener_registers name f st Hname Hk) as Hadd. cbv zeta in Hadd.
  fold l in Hadd. unfold st1. rewrite Hadd. simpl snd.
  match goal with |- context [dispatchEvent _ _ _ ?s] => set (s1 := s) end.
  destruct (dispatchEvent_own listener name data s1 (l ++ [f])) as (lines & -> & _).
  { simpl. apply lookup_insert_eq. }
  simpl. rewrite map_app. split; reflexivity.
Qed.

Lemma added_listener_witness :
  invoked (snd (dispatchEvent calm (VStr "e") (VNum 7)
                  (snd (addListener (VStr "e") (Fn 5)
                          (snd (addListener (VStr "e") (Fn 5) initial))))))
  = [(5, VNum 7); (5, VNum 7)].
Proof.
  assert ("e" ∉ object_prototype) as Hk
    by (apply (bool_decide_unpack _); reflexivity).
  destruct (added_listener_is_invoked_last calm (VStr "e") 5 (VNum 7)
              (snd (addListener (VStr "e") (Fn 5) initial)) eq_refl Hk) as [_ Hinv].
  exact Hinv.
Defined.

(** X11. For a string name that names no member of [Object.prototype], in
    a state whose table holds no empty list (every state the bridge
    reaches): removing a callback that is not on the name's list, or from a
    name that has no list, changes nothing at all and prints nothing. *)
Theorem removeListener_of_stranger s cb st :
  listeners_inv st →
  s ∉ object_prototype →
  (∀ l g, eventListeners st !! s = Some l → g ∈ l → cb ≠ Fn g) →
  removeListener (VStr s) cb st = (Ret (), st).
Proof.
  intros Hinv Hk Hstranger.
  destruct (eventListeners st !! s) as [l|] eqn:Hl.
  - pose proof (get_slot_own _ _ _ Hl
                : get_slot (eventListeners st) (to_string (VStr s)) = Own l) as Hslot.
    unfold removeListener. unfold_M. rewrite Hslot.
    rewrite (filter_other_callbacks cb l) by (intros g Hg; eapply Hstranger; eauto).
    rewrite bool_decide_eq_false_2 by auto.
    rewrite bool_decide_eq_false_2
      by (intros Hlen; apply (Hinv _ _ Hl); destruct l; [reflexivity|discriminate Hlen]).
    simpl. rewrite (insert_id _ _ _ Hl), with_eventListeners_id. reflexivity.
  - apply removeListener_absent, get_slot_absent; assumption.
Qed.

Lemma removeListener_of_stranger_witness :
  removeListener (VStr "e") (Fn 9) (snd (addListener (VStr "e") (Fn 1) initial))
  = (Ret (), snd (addListener (VStr "e") (Fn 1) initial)).
Proof.
  apply removeListener_of_stranger.
  - apply addListener_listeners_inv, initial_listeners_inv.
  - apply (bool_decide_unpack _). reflexivity.
  - intros l g Hl Hg. assert (l = [1]) as -> by (vm_compute in Hl; congruence).
    apply list_elem_of_singleton in Hg as ->. discriminate.
Defined.

(** X12. An event message from the host reaches the listeners: when the
    parsed message has a non-empty string as its [event] and that name has
    a subscriber list, [receiveMessage] invokes every listener on the list
    once, in order, with the message's [data], and returns even if
    listeners throw. *)
Theorem inbound_event_reaches_listeners parse listener response st res name l :
  fst (safeParseJSON parse response st) = Ret res →
  prop res "event" = VStr name →
  name ≠ EmptyString →
  eventListeners st !! name = Some l →
  let st' := snd (receiveMessage parse listener response st) in
  fst (receiveMessage parse listener response st) = Ret ()
  ∧ invoked st' = invoked st ++ map (λ f, (f, prop res "data")) l.
Proof.
  intros Hres Hname Hne Hl st'.
  assert (truthy (prop res "event") = true) as Hevent
    by (rewrite Hname; destruct name; [contradiction|reflexivity]).
  assert (eventListeners st !! to_string (prop res "event") = Some l) as Hl'
    by (rewrite Hname; exact Hl).
  assert (truthy res = true) as Htruthy by (destruct res; try discriminate Hevent; reflexivity).
  pose proof (receiveMessage_parsed parse listener response st res Hres) as Hrun.
  cbv zeta in Hrun. rewrite Htruthy, Hevent in Hrun. simpl negb in Hrun. cbv iota in Hrun.
  destruct (safeParseJSON_state parse response
              (with_console (console st ++ [received response]) st))
    as (r & lines & Hparse & _).
  rewrite Hparse in Hrun. simpl snd in Hrun.
  match type of Hrun with context [try_catch _ _ ?s] => set (st0 := s) in * end.
  destruct (dispatchEvent_own listener (prop res "event") (prop res "data") st0 l Hl')
    as (lines' & Hdispatch & _).
  unfold try_catch in Hrun. rewrite Hdispatch in Hrun.
  unfold st'. rewrite Hrun. repeat split.
Qed.

Lemma inbound_event_witness :
  invoked (snd (receiveMessage Json.parse first_throws
                  (VObj (<["event" := VStr "e"]> {[ "data" := VNum 3 ]}))
                  (snd (addListener (VStr "e") (Fn 2)
                          (snd (addListener (VStr "e") (Fn 1) initial))))))
  = [(1, VNum 3); (2, VNum 3)].
Proof.
  destruct (inbound_event_reaches_listeners Json.parse first_throws
              (VObj (<["event" := VStr "e"]> {[ "data" := VNum 3 ]}))
              (snd (addListener (VStr "e") (Fn 2)
                      (snd (addListener (VStr "e") (Fn 1) initial))))
              (VObj (<["event" := VStr "e"]> {[ "data" := VNum 3 ]}))
              "e" [1; 2]) as (_ & Hinv); [reflexivity|reflexivity|discriminate|reflexivity|].
  exact Hinv.
Defined.

(** ** Arguments that are turned away *)

Lemma get_slot_absent_lookup {A} (m : gmap string A) k :
  get_slot m k = Absent → m !! k = None.
Proof. unfold get_slot. destruct (m !! k); [discriminate|reflexivity]. Qed.

(** X13. [addListener] registers exactly when the name is a non-empty
    string, the callback is a function and the lookup of the name does not
    land on a member of [Object.prototype]; then it returns the unsubscribe
    handle and the function is at the end of the name's list. With a bad name
    or a callback that is not a function it prints one error, returns
    [undefined] and does not throw. Whenever it does not register, the
    subscriber table is as before. *)
Theorem addListener_registers_exactly_when name cb st :
  let ok := nonempty_string name
            && match cb with Fn _ => true | NotFn _ => false end
            && match get_slot (eventListeners st) (to_string name) with
               | Inherited => false
               | _ => true
               end in
  (ok = true →
     fst (addListener name cb st) = Ret (Some (name, cb))
     ∧ ∃ f, cb = Fn f
            ∧ eventListeners (snd (addListener name cb st))
              = <[to_string name := default [] (eventListeners st !! to_string name) ++ [f]]>
                  (eventListeners st))
  ∧ (ok = false →
       eventListeners (snd (addListener name cb st)) = eventListeners st
       ∧ ∀ h, fst (addListener name cb st) ≠ Ret (Some h))
  ∧ (nonempty_string name = false ∨ (∃ v, cb = NotFn v) →
       ∃ text, addListener name cb st
               = (Ret None, with_console (console st ++ [Line Err text []]) st)).
Proof.
  intros ok. unfold ok. split; [|split].
  - intros Hok. apply andb_true_iff in Hok as [Hok Hslot].
    apply andb_true_iff in Hok as [Hname Hcb].
    destruct cb as [f|v]; [|discriminate Hcb].
    destruct (get_slot (eventListeners st) (to_string name)) as [l| |] eqn:Hs;
      [|discriminate Hslot|].
    + apply get_slot_own_inv in Hs.
      rewrite (addListener_appends _ _ _ l) by assumption. rewrite Hs. simpl. eauto.
    + rewrite addListener_first by assumption.
      apply get_slot_absent_lookup in Hs. rewrite Hs. simpl. eauto.
  - intros Hok.
    destruct (nonempty_string name) eqn:Hname;
      [|rewrite addListener_invalid_name by assumption; split; [reflexivity|discriminate]].
    destruct cb as [f|v];
      [|rewrite addListener_not_function by assumption; split; [reflexivity|discriminate]].
    simpl in Hok.
    destruct (get_slot (eventListeners st) (to_string name)) as [l| |] eqn:Hs;
      try discriminate Hok.
    rewrite addListener_inherited by assumption. split; [reflexivity|discriminate].
  - intros [Hname|[v ->]].
    + eexists. apply addListener_invalid_name, Hname.
    + destruct (nonempty_string name) eqn:Hname.
      * eexists. apply addListener_not_function, Hname.
      * eexists. apply addListener_invalid_name, Hname.
Qed.

Lemma addListener_registers_exactly_when_witness :
  addListener (VStr EmptyString) (Fn 1) initial
  = (Ret None, with_console [Line Err "Invalid event name" []] initial).
Proof.
  destruct (addListener_registers_exactly_when (VStr EmptyString) (Fn 1) initial)
    as (_ & _ & Hbad).
  destruct Hbad as [text Hrun]; [left; reflexivity|].
  rewrite Hrun. assert (text = "Invalid event name") as ->; [|reflexivity].
  vm_compute in Hrun. congruence.
Defined.

(** X14. [setParams] turns away everything that is not an object, and
    [null]: a string, a number, a boolean, [undefined]. It prints one error
    and that is all: the store is as before, no [paramsUpdated] event is
    dispatched, no listener runs, nothing is thrown. *)
Theorem setParams_rejects_non_objects listener v st :
  typeof v ≠ TObject ∨ v = VNull →
  setParams listener v st
  = (Ret (), with_console (console st ++ [Line Err "Invalid params object" []]) st).
Proof.
  intros Hbad. apply setParams_invalid.
  destruct Hbad as [Hty| ->]; [|reflexivity].
  rewrite bool_decide_eq_true_2 by exact Hty. reflexivity.
Qed.

Lemma setParams_rejects_non_objects_witness :
  paramsStore (snd (setParams calm (VStr "a=1") (with_paramsStore {[ "a" := VNum 0 ]} initial)))
  = {[ "a" := VNum 0 ]}.
Proof.
  rewrite (setParams_rejects_non_objects calm (VStr "a=1")); [reflexivity|].
  left. discriminate.
Defined.

(** ** Arrays as params *)

Lemma array_props_lookup (l : list value) : ∀ k i,
  (list_to_map (imap (λ j x, (pretty (k + j), x)) l) : gmap string value) !! pretty (k + i)
  = l !! i.
Proof.
  induction l as [|x l IH]; intros k i; [reflexivity|].
  simpl. destruct i as [|i].
  - rewrite Nat.add_0_r. apply lookup_insert_eq.
  - rewrite lookup_insert_ne by (intros Heq; apply (inj pretty) in Heq; lia).
    simpl. rewrite <- (IH (S k) i).
    replace (k + S i) with (S k + i) by lia.
    f_equal. f_equal. apply imap_ext. intros j y _. simpl.
    replace (k + S j) with (S (k + j)) by lia. reflexivity.
Qed.

(** X15. An array passes the test of [setParams] (its [typeof] is
    ['object']) and is merged by index: element [i] is stored under the
    decimal text of [i], over what was stored there, and the indices beyond
    the array keep what they had. *)
Theorem setParams_array_merges_by_index listener (l : list value) st i :
  paramsStore (snd (setParams listener (VArr l) st)) !! pretty i
  = match l !! i with
    | Some v => Some v
    | None => paramsStore st !! pretty i
    end.
Proof.
  rewrite setParams_object by reflexivity. cbv zeta.
  assert (paramsStore (snd (dispatchEvent listener (VStr "paramsUpdated")
                              (VObj (own_props (VArr l) ∪ paramsStore st))
                              (with_console
                                 (console st ++
                                    [Line Info "Params updated:"
                                       [VObj (own_props (VArr l) ∪ paramsStore st)]])
                                 (with_paramsStore (own_props (VArr l) ∪ paramsStore st) st))))
          = own_props (VArr l) ∪ paramsStore st) as ->.
  { apply (dispatchEvent_preserves (λ s, paramsStore s = own_props (VArr l) ∪ paramsStore st));
      [intros; assumption..|reflexivity]. }
  rewrite merged_lookup.
  pose proof (array_props_lookup l 0 i) as Hl. cbn [Nat.add] in Hl.
  unfold own_props. rewrite Hl. reflexivity.
Qed.

(** ** Names that are not inherited *)

(** X16. For a string id or event name that names no member of
    [Object.prototype], [handleSuccess], [handleFailure], [dispatchEvent],
    [removeListener] and [addListener] return normally, in every state and
    even if listeners throw; and [setParams], which dispatches under a
    fixed name, returns normally for every argument. *)
Theorem ordinary_names_never_throw listener s v cb st :
  s ∉ object_prototype →
  fst (handleSuccess (VStr s) v st) = Ret ()
  ∧ fst (handleFailure (VStr s) v st) = Ret ()
  ∧ fst (dispatchEvent listener (VStr s) v st) = Ret ()
  ∧ fst (removeListener (VStr s) cb st) = Ret ()
  ∧ (∃ r, fst (addListener (VStr s) cb st) = Ret r)
  ∧ fst (setParams listener v st) = Ret ().
Proof.
  intros Hk. set (k := VStr s).
  assert (to_string k ∉ object_prototype) as Hk' by exact Hk.
  assert (∀ A (m : gmap string A),
            (∃ a, m !! to_string k = Some a) ∨ get_slot m (to_string k) = Absent) as Hslot.
  { intros A m. destruct (m !! to_string k) as [a|] eqn:Hm; [eauto|].
    right. apply get_slot_absent; assumption. }
  split; [|split; [|split; [|split; [|split]]]].
  - destruct (Hslot _ (callbackRegistry st)) as [[e He]|Habs].
    + rewrite (handleSuccess_own _ _ _ _ He). reflexivity.
    + rewrite handleSuccess_absent by exact Habs. reflexivity.
  - destruct (Hslot _ (callbackRegistry st)) as [[e He]|Habs].
    + rewrite (handleFailure_own _ _ _ _ He). reflexivity.
    + rewrite handleFailure_absent by exact Habs. reflexivity.
  - destruct (Hslot _ (eventListeners st)) as [[l Hl]|Habs].
    + destruct (dispatchEvent_own listener k v st l Hl) as (lines & -> & _). reflexivity.
    + rewrite dispatchEvent_absent by exact Habs. reflexivity.
  - destruct (Hslot _ (eventListeners st)) as [[l Hl]|Habs].
    + apply (removeListener_own k cb st l Hl).
    + rewrite removeListener_absent by exact Habs. reflexivity.
  - destruct (nonempty_string k) eqn:Hname;
      [|rewrite addListener_invalid_name by assumption; eauto].
    destruct cb as [f|w]; [|rewrite addListener_not_function by assumption; eauto].
    rewrite addListener_registers by assumption. eauto.
  - destruct (bool_decide (typeof v ≠ TObject) || is_null v) eqn:Hbad.
    + rewrite setParams_invalid by exact Hbad. reflexivity.
    + apply orb_false_iff in Hbad as [Hty Hnull].
      apply bool_decide_eq_false_1 in Hty.
      rewrite setParams_object;
        [|destruct (decide (typeof v = TObject)); [assumption|contradiction]|exact Hnull].
      cbv zeta.
      match goal with |- context [dispatchEvent _ _ ?d ?s] => set (s0 := s); set (d0 := d) end.
      destruct (eventListeners s0 !! "paramsUpdated") as [l|] eqn:Hl.
      * destruct (dispatchEvent_own listener (VStr "paramsUpdated") d0 s0 l Hl)
          as (lines & -> & _). reflexivity.
      * rewrite dispatchEvent_absent; [reflexivity|].
        simpl to_string. rewrite paramsUpdated_slot, Hl. reflexivity.
Qed.

Lemma ordinary_names_never_throw_witness :
  fst (dispatchEvent first_throws (VStr "e") VNull
         (snd (addListener (VStr "e") (Fn 1) initial))) = Ret ().
Proof.
  assert ("e" ∉ object_prototype) as Hk
    by (apply (bool_decide_unpack _); reflexivity).
  destruct (ordinary_names_never_throw first_throws "e" VNull (Fn 0)
              (snd (addListener (VStr "e") (Fn 1) initial)) Hk) as (_ & _ & Hd & _).
  exact Hd.
Defined.

(** ** The counter and the ids *)

Lemma step_counter parse listener st o :
  requestIdCounter (step parse listener st o)
  = (requestIdCounter st + if valid_call o then 1 else 0)%N.
Proof.
  destruct (is_call o) eqn:Hcall.
  - destruct o; try discriminate Hcall. simpl.
    destruct (nonempty_string className && nonempty_string methodName) eqn:Hvalid.
    + apply andb_true_iff in Hvalid as [Hcn Hmn].
      destruct (call_valid_ids className methodName params st Hcn Hmn) as (_ & -> & _).
      reflexivity.
    + destruct (call_invalid_same_ids className methodName params st Hvalid) as (_ & -> & _).
      lia.
  - destruct (step_same_ids parse listener st o Hcall) as (_ & -> & _).
    destruct o; try discriminate Hcall; simpl; lia.
Qed.

(** X17. [requestIdCounter] counts the calls whose names were valid: after
    any run it is where it started plus the number of such calls, so from
    the start of the script the n-th valid call draws counter n. A call
    turned away by validation draws no id, and nothing else moves the
    counter. *)
Theorem counter_counts_valid_calls parse listener tr : ∀ st,
  requestIdCounter (run parse listener st tr)
  = (requestIdCounter st + N.of_nat (length (filter (λ o, valid_call o = true) tr)))%N.
Proof.
  induction tr as [|o tr IH]; intros st; [simpl; lia|].
  simpl run. rewrite IH, step_counter.
  destruct (valid_call o) eqn:Hvalid.
  - rewrite filter_cons_True by exact Hvalid. simpl length. lia.
  - rewrite filter_cons_False by congruence. lia.
Qed.

(** X18. An id can be read back: two generated ids are equal only when
    both the timestamp and the counter they were built from are equal,
    since the digits of the timestamp cannot run into the counter across
    the underscore. So ids drawn at different counter values differ even at
    the same clock reading, and [generateRequestId] returns the id of the
    current clock and counter and moves the counter on by one. *)
Theorem request_id_reads_back now n now' n' st :
  (request_id now n = request_id now' n' ↔ now = now' ∧ n = n')
  ∧ generateRequestId st
    = (Ret (request_id (clock st) (requestIdCounter st)),
       with_requestIdCounter (requestIdCounter st + 1)%N st)
  ∧ fst (generateRequestId (snd (generateRequestId st))) ≠ fst (generateRequestId st).
Proof.
  split; [|split].
  - split; [apply request_id_inj|]. intros [-> ->]. reflexivity.
  - reflexivity.
  - intros Heq.
    pose proof (f_equal (λ r, match r with Ret id => id | Throw _ => EmptyString end) Heq)
      as Hid.
    change (request_id (clock st) (requestIdCounter st + 1)
            = request_id (clock st) (requestIdCounter st)) in Hid.
    apply request_id_inj in Hid as [_ Hid]. lia.
Qed.

(** ** Loading the script *)

Lemma script_makes_the_call st :
  script false st
  = match notify_initialized
            (with_console
               (console st ++
                  [Line Info ("Initializing SuperApp Bridge v" +:+ VERSION +:+ "...") [];
                   Line Info "SuperApp Bridge is Ready!" []]) st) with
    | (Ret p, s) => (Ret (Some p), s)
    | (Throw e, s) => (Throw e, s)
    end.
Proof.
  unfold script, mbind, M_bind, logger_log, console_write, modify, mret, M_ret.
  simpl. rewrite <- app_assoc. reflexivity.
Qed.

(** X19. Loading the script. While the document is still loading the
    script only prints its two lines: no id is drawn and nothing is posted
    until [DOMContentLoaded]. Otherwise, and at [DOMContentLoaded], it makes
    one call, the first of the script, with counter 1: with a channel whose
    [postMessage] returns, exactly the payload [{id, className:
    "superAppBase", method: "initialized", params: {}}] is posted and the
    request is pending; with no channel the promise is rejected at once and
    nothing is posted or left pending, and the [catch] reaction prints that
    error. *)
Theorem script_notifies_once now ch :
  let st0 := with_channel ch (with_clock now initial) in
  let banner := [Line Info "Initializing SuperApp Bridge v0.1.0..." [];
                 Line Info "SuperApp Bridge is Ready!" []] in
  let rid := request_id now 1 in
  let payload := payload_of rid (VStr "superAppBase") (VStr "initialized") (VObj ∅) in
  script true st0 = (Ret None, with_console banner st0)
  ∧ DOMContentLoaded (snd (script true st0)) = notify_initialized (with_console banner st0)
  ∧ fst (script false st0) = Ret (Some 0)
  ∧ issued (snd (script false st0)) = [rid]
  ∧ match ch with
    | NoChannel =>
        promises (snd (script false st0))
        = [Rejected (Error "SuperAppChannel is not available!")]
        ∧ posted (snd (script false st0)) = []
        ∧ callbackRegistry (snd (script false st0)) = ∅
        ∧ timers (snd (script false st0)) = ∅
        ∧ last (console (snd (notified (Rejected (Error "SuperAppChannel is not available!"))
                               (snd (script false st0)))))
          = Some (Line Err "Error notifying SuperApp:"
                    [Error "SuperAppChannel is not available!"])
    | Channel post =>
        posted (snd (script false st0)) = [payload]
        ∧ (post payload = None →
             promises (snd (script false st0)) = [Pending]
             ∧ callbackRegistry (snd (script false st0)) = {[ rid := Entry 0 now 0 ]}
             ∧ timers (snd (script false st0)) = {[ 0 := Timer rid timeoutDuration ]})
    end.
Proof.
  intros st0 banner rid payload.
  split; [reflexivity|]. split; [reflexivity|].
  rewrite script_makes_the_call. unfold notify_initialized.
  change (with_console _ st0) with (with_console banner st0).
  destruct ch as [|post].
  - rewrite call_no_channel by reflexivity. simpl.
    rewrite !delete_insert_eq, !delete_empty. repeat split.
  - rewrite (call_channel _ _ _ _ post) by reflexivity. simpl.
    fold rid. fold payload.
    destruct (post payload) as [msg|] eqn:Hpost; simpl.
    + repeat split; try reflexivity; discriminate.
    + repeat split; reflexivity.
Qed.

Lemma script_notifies_once_witness :
  promises (snd (script false (with_channel accepting (with_clock 5 initial)))) = [Pending].
Proof.
  destruct (script_notifies_once 5 accepting) as (_ & _ & _ & _ & _ & Hpending).
  destruct (Hpending eq_refl) as [Hp _]. exact Hp.
Defined.
